(** * gpt-load: the HTTP client manager (internal/httpclient/manager.go)

    A shallow embedding of [Config.getFingerprint] and
    [HTTPClientManager.GetClient], together with the parts of the Go
    standard library they rely on ([time.Duration.Seconds], the verbs of
    [fmt.Sprintf] used by the fingerprint, [sync.RWMutex]), and the
    properties of the client cache that follow from them. *)

From Stdlib Require Import ZArith String Ascii List Bool Lia.
From Stdlib Require Import DecimalString DecimalZ DecimalN SpecFloat.
From stdpp Require Import gmap strings list fin_maps.

Local Open Scope Z_scope.

(** ** Go's [float64]

    IEEE 754 binary64 with round-to-nearest-even, through the Standard
    Library's executable specification of floating-point arithmetic. *)
Module float64.

Definition prec : Z := 53.
Definition emax : Z := 1024.

Definition t := spec_float.

(** The conversion [float64(n)] of an integer. *)
Definition of_int (n : Z) : t := binary_normalize prec emax n 0 false.

Definition add (x y : t) : t := SFadd prec emax x y.
Definition div (x y : t) : t := SFdiv prec emax x y.

(** The integer nearest to [m * 2^e], ties to the even one. *)
Definition round_mantissa (m : positive) (e : Z) : N :=
  match e with
  | Z0 => Npos m
  | Zpos k => N.shiftl (Npos m) (Npos k)
  | Zneg k =>
      let d := N.shiftl 1 (Npos k) in
      let q := (Npos m / d)%N in
      let r := (Npos m mod d)%N in
      match (2 * r ?= d)%N with
      | Lt => q
      | Eq => if N.even q then q else N.succ q
      | Gt => N.succ q
      end
  end.

End float64.

(** ** The [fmt] verbs of the fingerprint *)
Module fmt.

(** [%d] of an integer. *)
Definition verb_d (n : Z) : string := NilEmpty.string_of_int (Z.to_int n).

(** [%t] of a boolean. *)
Definition verb_t (b : bool) : string := if b then "true" else "false".

(** [%s] of a string: the bytes as they are. *)
Definition verb_s (s : string) : string := s.

Definition sign_text (s : bool) : string := if s then "-" else "".

(** [%.0f] of a float64: the exact value rounded to an integer, ties to
    even, after the sign of the float (so a negative value that rounds
    to zero prints as "-0"). *)
Definition verb_f0 (x : float64.t) : string :=
  match x with
  | S754_nan => "NaN"
  | S754_infinity s => if s then "-Inf" else "+Inf"
  | S754_zero s => sign_text s +:+ "0"
  | S754_finite s m e =>
      sign_text s +:+ NilEmpty.string_of_uint (N.to_uint (float64.round_mantissa m e))
  end.

End fmt.

(** ** [time.Duration]: a signed 64-bit count of nanoseconds *)
Module time.

Definition Duration := Z.

Definition Nanosecond : Duration := 1.
Definition Millisecond : Duration := 1000000.
Definition Second : Duration := 1000000000.

Definition MinDuration : Duration := - 2 ^ 63.
Definition MaxDuration : Duration := 2 ^ 63 - 1.

Definition in_range (d : Duration) : Prop := MinDuration <= d <= MaxDuration.

(** [func (d Duration) Seconds() float64]:
    [sec := d / Second; nsec := d % Second;
     return float64(sec) + float64(nsec)/1e9],
    with Go's integer division, which truncates towards zero. *)
Definition Seconds (d : Duration) : float64.t :=
  let sec := Z.quot d Second in
  let nsec := Z.rem d Second in
  float64.add (float64.of_int sec)
              (float64.div (float64.of_int nsec) (float64.of_int 1000000000)).

End time.

(** ** Package [httpclient]: the configuration and its fingerprint *)
Module httpclient.

Record Config := {
  ConnectTimeout : time.Duration;
  RequestTimeout : time.Duration;
  IdleConnTimeout : time.Duration;
  MaxIdleConns : Z;
  MaxIdleConnsPerHost : Z;
  ResponseHeaderTimeout : time.Duration;
  DisableCompression : bool;
  WriteBufferSize : Z;
  ReadBufferSize : Z;
  ForceAttemptHTTP2 : bool;
  TLSHandshakeTimeout : time.Duration;
  ExpectContinueTimeout : time.Duration;
  ProxyURL : string;
  ProxyTLSSkipVerify : bool
}.

(** The text [%.0f] prints for [d.Seconds()]. *)
Definition seconds_text (d : time.Duration) : string :=
  fmt.verb_f0 (time.Seconds d).

(** [func (c *Config) getFingerprint() string] *)
Definition getFingerprint (c : Config) : string :=
  "ct:" +:+ seconds_text (ConnectTimeout c) +:+
  "s|rt:" +:+ seconds_text (RequestTimeout c) +:+
  "s|it:" +:+ seconds_text (IdleConnTimeout c) +:+
  "s|mic:" +:+ fmt.verb_d (MaxIdleConns c) +:+
  "|mich:" +:+ fmt.verb_d (MaxIdleConnsPerHost c) +:+
  "|rht:" +:+ seconds_text (ResponseHeaderTimeout c) +:+
  "s|dc:" +:+ fmt.verb_t (DisableCompression c) +:+
  "|wbs:" +:+ fmt.verb_d (WriteBufferSize c) +:+
  "|rbs:" +:+ fmt.verb_d (ReadBufferSize c) +:+
  "|fh2:" +:+ fmt.verb_t (ForceAttemptHTTP2 c) +:+
  "|tlst:" +:+ seconds_text (TLSHandshakeTimeout c) +:+
  "s|ect:" +:+ seconds_text (ExpectContinueTimeout c) +:+
  "s|proxy:" +:+ fmt.verb_s (ProxyURL c) +:+
  "|ptls:" +:+ fmt.verb_t (ProxyTLSSkipVerify c).


(** *** The Go values the manager works with *)

(** [sync.RWMutex], as far as [GetClient] uses it: the number of read
    locks held and whether the write lock is held. A reader is admitted
    whenever no writer holds the lock; Go also makes new readers wait while
    a writer is waiting, which only removes schedules. *)
Module sync.
Record RWMutex := { readers : nat; writer : bool }.
Definition zero : RWMutex := {| readers := 0; writer := false |}.
End sync.

Module net.
Record Dialer := { Timeout : time.Duration; KeepAlive : time.Duration }.
End net.

Module tls.
Record Config := { InsecureSkipVerify : bool }.
End tls.

(** [net/url]: [url.Parse] is not code of this repository; the manager is
    verified for every parser. [ErrorText] is [err.Error()], what [%v]
    prints for the error. *)
Module url.
Class API := {
  URL : Type;
  Error : Type;
  Parse : string → URL + Error;
  ErrorText : Error → string
}.

(** A parser for the examples. As [url.Parse] does, it rejects a string
    in which a percent sign does not start an escape of two hexadecimal
    digits; it accepts every other string. *)
Definition is_hex (a : ascii) : bool :=
  let n := nat_of_ascii a in
  ((48 <=? n) && (n <=? 57) || (65 <=? n) && (n <=? 70) || (97 <=? n) && (n <=? 102))%nat.

Fixpoint escapes_ok (s : string) : bool :=
  match s with
  | EmptyString => true
  | String "%" (String a (String b r)) => is_hex a && is_hex b && escapes_ok r
  | String "%" _ => false
  | String _ r => escapes_ok r
  end.

Definition escape_checker : API := {|
  URL := string;
  Error := string;
  Parse s := if escapes_ok s then inl s else inr "invalid URL escape";
  ErrorText e := e
|}.
End url.

Module logrus.
Inductive Level :=
  PanicLevel | FatalLevel | ErrorLevel | WarnLevel | InfoLevel | DebugLevel | TraceLevel.
Record Entry := { EntryLevel : Level; Message : string }.
#[global] Instance Level_eq_dec : EqDecision Level.
Proof. solve_decision. Defined.
#[global] Instance Entry_eq_dec : EqDecision Entry.
Proof. solve_decision. Defined.
(** What a call of [logrus.Warnf] emits, the message already formatted. *)
Definition Warnf (msg : string) : Entry := {| EntryLevel := WarnLevel; Message := msg |}.
End logrus.

Module http.
Section WithURL.
Context `{url.API}.

(** The value of [Transport.Proxy]. *)
Inductive ProxyFunc :=
| ProxyFromEnvironment
| ProxyURL (fixedURL : url.URL).

Record Transport := {
  DialContext : net.Dialer;
  ForceAttemptHTTP2 : bool;
  MaxIdleConns : Z;
  MaxIdleConnsPerHost : Z;
  IdleConnTimeout : time.Duration;
  TLSHandshakeTimeout : time.Duration;
  ExpectContinueTimeout : time.Duration;
  ResponseHeaderTimeout : time.Duration;
  DisableCompression : bool;
  WriteBufferSize : Z;
  ReadBufferSize : Z;
  TLSClientConfig : option tls.Config;
  Proxy : option ProxyFunc
}.

Record Client := { Client_Transport : Transport; Client_Timeout : time.Duration }.

(** The two kinds of TLS connection a transport opens. *)
Inductive Leg := ProxyLeg | OriginLeg.

(** [net/http] hands [Transport.TLSClientConfig] to every TLS
    handshake of the transport, whichever the peer; without one the
    defaults apply, which verify the certificate. *)
Definition verifies (t : Transport) (leg : Leg) : bool :=
  match TLSClientConfig t with
  | Some cfg => negb (tls.InsecureSkipVerify cfg)
  | None => true
  end.
End WithURL.
End http.

(** A [*http.Client]: the index of the client in the heap. *)
Definition ptr := nat.

(** [type HTTPClientManager struct]; [clients] is [None] for the nil map
    of a zero-valued manager. *)
Record HTTPClientManager := {
  clients : option (gmap string ptr);
  lock : sync.RWMutex
}.

(** [func NewHTTPClientManager() *HTTPClientManager] *)
Definition NewHTTPClientManager : HTTPClientManager :=
  {| clients := Some ∅; lock := sync.zero |}.

(** An atomic action either moves on, or cannot run now (a lock that is
    not free), or makes the Go runtime stop the program. *)
Inductive outcome (X : Type) :=
| Next (x : X)
| Blocked
| Panicked.
Arguments Next {X} x.
Arguments Blocked {X}.
Arguments Panicked {X}.

Section WithURL.
Context `{url.API}.

(** What the code reads and writes: the manager [m], the [http.Client]
    values allocated so far, and what [logrus] has emitted, oldest
    first. *)
Record world := {
  manager : HTTPClientManager;
  heap : list http.Client;
  logged : list logrus.Entry
}.

Definition with_manager (w : world) (m : HTTPClientManager) : world :=
  {| manager := m; heap := heap w; logged := logged w |}.

Definition with_lock (w : world) (l : sync.RWMutex) : world :=
  with_manager w {| clients := clients (manager w); lock := l |}.

(** *** Programs: atomic actions on the world, in sequence *)
#[warnings="-register-all"]
Inductive prog (A : Type) :=
| Ret (a : A)
| Act (f : world → outcome (world * prog A)).
Arguments Ret {A} a.
Arguments Act {A} f.

Fixpoint bind {A B} (p : prog A) (k : A → prog B) : prog B :=
  match p with
  | Ret a => k a
  | Act f =>
      Act (fun w =>
             match f w with
             | Next (w', p') => Next (w', bind p' k)
             | Blocked => Blocked
             | Panicked => Panicked
             end)
  end.

Definition action {A} (f : world → outcome (world * A)) : prog A :=
  Act (fun w =>
         match f w with
         | Next (w', a) => Next (w', Ret a)
         | Blocked => Blocked
         | Panicked => Panicked
         end).

(** Running a program alone, to its end. *)
Fixpoint run {A} (p : prog A) (w : world) : outcome (A * world) :=
  match p with
  | Ret a => Next (a, w)
  | Act f =>
      match f w with
      | Next (w', p') => run p' w'
      | Blocked => Blocked
      | Panicked => Panicked
      end
  end.

(** [m.lock.RLock()] *)
Definition RLock : prog unit :=
  action (fun w =>
    let l := lock (manager w) in
    if sync.writer l then Blocked
    else Next (with_lock w {| sync.readers := S (sync.readers l); sync.writer := false |}, tt)).

(** [m.lock.RUnlock()]; on a mutex that is not read-locked the runtime
    stops the program. *)
Definition RUnlock : prog unit :=
  action (fun w =>
    let l := lock (manager w) in
    match sync.readers l with
    | O => Panicked
    | S n => Next (with_lock w {| sync.readers := n; sync.writer := sync.writer l |}, tt)
    end).

(** [m.lock.Lock()] *)
Definition Lock : prog unit :=
  action (fun w =>
    let l := lock (manager w) in
    if sync.writer l then Blocked
    else match sync.readers l with
         | O => Next (with_lock w {| sync.readers := 0; sync.writer := true |}, tt)
         | S _ => Blocked
         end).

(** [m.lock.Unlock()]; on a mutex that is not locked the runtime stops
    the program. *)
Definition Unlock : prog unit :=
  action (fun w =>
    let l := lock (manager w) in
    if sync.writer l
    then Next (with_lock w {| sync.readers := sync.readers l; sync.writer := false |}, tt)
    else Panicked).

(** [client, exists := m.clients[fingerprint]]; reading a nil map finds
    nothing. *)
Definition map_get (fingerprint : string) : prog (option ptr) :=
  action (fun w =>
    Next (w, match clients (manager w) with
             | Some cm => cm !! fingerprint
             | None => None
             end)).

(** [m.clients[fingerprint] = newClient]; assigning to an entry of a
    nil map panics. *)
Definition map_set (fingerprint : string) (newClient : ptr) : prog unit :=
  action (fun w =>
    match clients (manager w) with
    | Some cm =>
        Next (with_manager w {| clients := Some (<[fingerprint := newClient]> cm);
                                lock := lock (manager w) |}, tt)
    | None => Panicked
    end).

(** [logrus.Warnf(...)] *)
Definition Warnf (msg : string) : prog unit :=
  action (fun w =>
    Next ({| manager := manager w; heap := heap w;
             logged := logged w ++ [logrus.Warnf msg] |}, tt)).

(** [&http.Client{...}]: a new client, at a new address. *)
Definition new_Client (c : http.Client) : prog ptr :=
  action (fun w =>
    Next ({| manager := manager w; heap := heap w ++ [c]; logged := logged w |},
          length (heap w))).

#[global] Instance prog_ret : MRet prog := λ A a, Ret a.
#[global] Instance prog_bind : MBind prog := λ A B k p, bind p k.

(** *** [GetClient] *)

Definition skip_verify_warning : string :=
  "Proxy TLS certificate verification is disabled - this is not recommended for production use".

(** ["Invalid proxy URL '%s' provided, falling back to environment settings: %v"] *)
Definition invalid_proxy_warning (proxyURL : string) (err : url.Error) : string :=
  "Invalid proxy URL '" +:+ proxyURL +:+
  "' provided, falling back to environment settings: " +:+ url.ErrorText err.

(** [transport := &http.Transport{...}] (lines 73-88); the fields the
    literal leaves out are nil. *)
Definition new_Transport (config : Config) : http.Transport := {|
  http.DialContext := {| net.Timeout := ConnectTimeout config;
                         net.KeepAlive := 30 * time.Second |};
  http.ForceAttemptHTTP2 := ForceAttemptHTTP2 config;
  http.MaxIdleConns := MaxIdleConns config;
  http.MaxIdleConnsPerHost := MaxIdleConnsPerHost config;
  http.IdleConnTimeout := IdleConnTimeout config;
  http.TLSHandshakeTimeout := TLSHandshakeTimeout config;
  http.ExpectContinueTimeout := ExpectContinueTimeout config;
  http.ResponseHeaderTimeout := ResponseHeaderTimeout config;
  http.DisableCompression := DisableCompression config;
  http.WriteBufferSize := WriteBufferSize config;
  http.ReadBufferSize := ReadBufferSize config;
  http.TLSClientConfig := None;
  http.Proxy := None
|}.

(** [transport.TLSClientConfig = v] *)
Definition set_TLSClientConfig (t : http.Transport) (v : option tls.Config) : http.Transport := {|
  http.DialContext := http.DialContext t;
  http.ForceAttemptHTTP2 := http.ForceAttemptHTTP2 t;
  http.MaxIdleConns := http.MaxIdleConns t;
  http.MaxIdleConnsPerHost := http.MaxIdleConnsPerHost t;
  http.IdleConnTimeout := http.IdleConnTimeout t;
  http.TLSHandshakeTimeout := http.TLSHandshakeTimeout t;
  http.ExpectContinueTimeout := http.ExpectContinueTimeout t;
  http.ResponseHeaderTimeout := http.ResponseHeaderTimeout t;
  http.DisableCompression := http.DisableCompression t;
  http.WriteBufferSize := http.WriteBufferSize t;
  http.ReadBufferSize := http.ReadBufferSize t;
  http.TLSClientConfig := v;
  http.Proxy := http.Proxy t
|}.

(** [transport.Proxy = v] *)
Definition set_Proxy (t : http.Transport) (v : http.ProxyFunc) : http.Transport := {|
  http.DialContext := http.DialContext t;
  http.ForceAttemptHTTP2 := http.ForceAttemptHTTP2 t;
  http.MaxIdleConns := http.MaxIdleConns t;
  http.MaxIdleConnsPerHost := http.MaxIdleConnsPerHost t;
  http.IdleConnTimeout := http.IdleConnTimeout t;
  http.TLSHandshakeTimeout := http.TLSHandshakeTimeout t;
  http.ExpectContinueTimeout := http.ExpectContinueTimeout t;
  http.ResponseHeaderTimeout := http.ResponseHeaderTimeout t;
  http.DisableCompression := http.DisableCompression t;
  http.WriteBufferSize := http.WriteBufferSize t;
  http.ReadBufferSize := http.ReadBufferSize t;
  http.TLSClientConfig := http.TLSClientConfig t;
  http.Proxy := Some v
|}.

(** Lines 90-96: "Configure TLS settings for proxy if needed". *)
Definition configure_proxy_tls (config : Config) (transport : http.Transport)
  : prog http.Transport :=
  if ProxyTLSSkipVerify config then
    let transport :=
      set_TLSClientConfig transport (Some {| tls.InsecureSkipVerify := true |}) in
    Warnf skip_verify_warning ;;
    mret transport
  else mret transport.

(** Lines 98-109: "Set http proxy". *)
Definition set_http_proxy (config : Config) (transport : http.Transport)
  : prog http.Transport :=
  if negb (String.eqb (ProxyURL config) "") then
    match url.Parse (ProxyURL config) with
    | inr err =>
        Warnf (invalid_proxy_warning (ProxyURL config) err) ;;
        mret (set_Proxy transport http.ProxyFromEnvironment)
    | inl proxyURL =>
        mret (set_Proxy transport (http.ProxyURL proxyURL))
    end
  else mret (set_Proxy transport http.ProxyFromEnvironment).

(** Lines 111-117: the client is allocated, stored under the
    fingerprint and returned; the deferred [Unlock] runs at the
    return. *)
Definition store_new_client (config : Config) (transport : http.Transport) : prog ptr :=
  newClient ← new_Client {| http.Client_Transport := transport;
                            http.Client_Timeout := RequestTimeout config |};
  map_set (getFingerprint config) newClient ;;
  Unlock ;;
  mret newClient.

(** Lines 72-117: the construction of a client, the write lock held. *)
Definition build (config : Config) : prog ptr :=
  transport ← configure_proxy_tls config (new_Transport config);
  transport ← set_http_proxy config transport;
  store_new_client config transport.

(** Lines 63-117: "Slow path with write lock". *)
Definition slow_path (config : Config) : prog ptr :=
  Lock ;;
  found ← map_get (getFingerprint config);
  match found with
  | Some client => Unlock ;; mret client
  | None => build config
  end.

(** [func (m *HTTPClientManager) GetClient(config *Config) *http.Client] *)
Definition GetClient (config : Config) : prog ptr :=
  RLock ;;
  found ← map_get (getFingerprint config);
  RUnlock ;;
  match found with
  | Some client => mret client
  | None => slow_path config
  end.

(** The world in which a new manager has just been made. *)
Definition fresh_world : world :=
  {| manager := NewHTTPClientManager; heap := []; logged := [] |}.

(** *** Callers in parallel

    Every caller runs [GetClient]; a scheduler picks, step after step,
    the caller that performs its next atomic action. A caller that is
    picked while it cannot move (its lock is taken, or it has
    returned) leaves everything as it is. *)
Record system := {
  shared : world;
  callers : list (prog ptr)
}.

Inductive verdict := Moved (s : system) | Waits | Returns (client : ptr) | Crashes | Absent.

Definition try_caller (i : nat) (s : system) : verdict :=
  match callers s !! i with
  | None => Absent
  | Some (Ret client) => Returns client
  | Some (Act f) =>
      match f (shared s) with
      | Next (w', p') => Moved {| shared := w'; callers := <[i := p']> (callers s) |}
      | Blocked => Waits
      | Panicked => Crashes
      end
  end.

Definition step (i : nat) (s : system) : system :=
  match try_caller i s with
  | Moved s' => s'
  | _ => s
  end.

Definition schedule := list nat.

Definition exec (sched : schedule) (s : system) : system :=
  foldl (λ s i, step i s) s sched.

(** All the callers start together on the world [w]. *)
Definition spawn (w : world) (configs : list Config) : system :=
  {| shared := w; callers := GetClient <$> configs |}.

(** What a caller has returned, if it has. *)
Definition result (p : prog ptr) : option ptr :=
  match p with
  | Ret client => Some client
  | Act _ => None
  end.

Definition returned (s : system) (i : nat) (client : ptr) : Prop :=
  callers s !! i = Some (Ret client).

Definition all_returned (s : system) : Prop :=
  ∀ i p, callers s !! i = Some p → ∃ client, p = Ret client.

End WithURL.

Arguments Ret {_ _} a.
Arguments Act {_ _} f.

End httpclient.

Import httpclient.

(** * Definitions for the statements and their proofs *)

(** ** Configurations of the examples, and relations between configurations *)

(** A configuration with the default request settings of [SystemSettings]
    (connect 15s, request 600s, idle 120s, response header 600s, 100 idle
    connections, 50 per host, no proxy). *)
Definition sample : Config := {|
  ConnectTimeout := 15 * time.Second;
  RequestTimeout := 600 * time.Second;
  IdleConnTimeout := 120 * time.Second;
  MaxIdleConns := 100;
  MaxIdleConnsPerHost := 50;
  ResponseHeaderTimeout := 600 * time.Second;
  DisableCompression := false;
  WriteBufferSize := 32768;
  ReadBufferSize := 32768;
  ForceAttemptHTTP2 := true;
  TLSHandshakeTimeout := 10 * time.Second;
  ExpectContinueTimeout := 1 * time.Second;
  ProxyURL := "";
  ProxyTLSSkipVerify := false
|}.

(** [sample] with another connect timeout. *)
Definition with_connect (d : time.Duration) : Config := {|
  ConnectTimeout := d;
  RequestTimeout := RequestTimeout sample;
  IdleConnTimeout := IdleConnTimeout sample;
  MaxIdleConns := MaxIdleConns sample;
  MaxIdleConnsPerHost := MaxIdleConnsPerHost sample;
  ResponseHeaderTimeout := ResponseHeaderTimeout sample;
  DisableCompression := DisableCompression sample;
  WriteBufferSize := WriteBufferSize sample;
  ReadBufferSize := ReadBufferSize sample;
  ForceAttemptHTTP2 := ForceAttemptHTTP2 sample;
  TLSHandshakeTimeout := TLSHandshakeTimeout sample;
  ExpectContinueTimeout := ExpectContinueTimeout sample;
  ProxyURL := ProxyURL sample;
  ProxyTLSSkipVerify := ProxyTLSSkipVerify sample
|}.

(** [sample] with another idle timeout. *)
Definition with_idle (d : time.Duration) : Config := {|
  ConnectTimeout := ConnectTimeout sample;
  RequestTimeout := RequestTimeout sample;
  IdleConnTimeout := d;
  MaxIdleConns := MaxIdleConns sample;
  MaxIdleConnsPerHost := MaxIdleConnsPerHost sample;
  ResponseHeaderTimeout := ResponseHeaderTimeout sample;
  DisableCompression := DisableCompression sample;
  WriteBufferSize := WriteBufferSize sample;
  ReadBufferSize := ReadBufferSize sample;
  ForceAttemptHTTP2 := ForceAttemptHTTP2 sample;
  TLSHandshakeTimeout := TLSHandshakeTimeout sample;
  ExpectContinueTimeout := ExpectContinueTimeout sample;
  ProxyURL := ProxyURL sample;
  ProxyTLSSkipVerify := ProxyTLSSkipVerify sample
|}.

(** [sample] with another proxy URL. *)
Definition with_proxy (proxy : string) (skip : bool) : Config := {|
  ConnectTimeout := ConnectTimeout sample;
  RequestTimeout := RequestTimeout sample;
  IdleConnTimeout := IdleConnTimeout sample;
  MaxIdleConns := MaxIdleConns sample;
  MaxIdleConnsPerHost := MaxIdleConnsPerHost sample;
  ResponseHeaderTimeout := ResponseHeaderTimeout sample;
  DisableCompression := DisableCompression sample;
  WriteBufferSize := WriteBufferSize sample;
  ReadBufferSize := ReadBufferSize sample;
  ForceAttemptHTTP2 := ForceAttemptHTTP2 sample;
  TLSHandshakeTimeout := TLSHandshakeTimeout sample;
  ExpectContinueTimeout := ExpectContinueTimeout sample;
  ProxyURL := proxy;
  ProxyTLSSkipVerify := skip
|}.

(** The character [c] does not occur in the string. *)
Fixpoint absent (c : ascii) (s : string) : Prop :=
  match s with
  | EmptyString => True
  | String a s' => a ≠ c ∧ absent c s'
  end.


(** Two durations with the same whole part: they differ, if at all, in
    the part below one second ([d / Second] is the same). *)
Definition same_whole_part (d1 d2 : time.Duration) : Prop :=
  Z.quot d1 time.Second = Z.quot d2 time.Second.



(** The configurations differ in a field at the precision the
    fingerprint declares: in the whole seconds of a duration (its value
    without the part below one second, [d / Second]), in a count, in a
    boolean or in the proxy URL. *)
Definition differ_at_precision (c1 c2 : Config) : Prop :=
  ¬ same_whole_part (ConnectTimeout c1) (ConnectTimeout c2) ∨
  ¬ same_whole_part (RequestTimeout c1) (RequestTimeout c2) ∨
  ¬ same_whole_part (IdleConnTimeout c1) (IdleConnTimeout c2) ∨
  MaxIdleConns c1 ≠ MaxIdleConns c2 ∨
  MaxIdleConnsPerHost c1 ≠ MaxIdleConnsPerHost c2 ∨
  ¬ same_whole_part (ResponseHeaderTimeout c1) (ResponseHeaderTimeout c2) ∨
  DisableCompression c1 ≠ DisableCompression c2 ∨
  WriteBufferSize c1 ≠ WriteBufferSize c2 ∨
  ReadBufferSize c1 ≠ ReadBufferSize c2 ∨
  ForceAttemptHTTP2 c1 ≠ ForceAttemptHTTP2 c2 ∨
  ¬ same_whole_part (TLSHandshakeTimeout c1) (TLSHandshakeTimeout c2) ∨
  ¬ same_whole_part (ExpectContinueTimeout c1) (ExpectContinueTimeout c2) ∨
  ProxyURL c1 ≠ ProxyURL c2 ∨
  ProxyTLSSkipVerify c1 ≠ ProxyTLSSkipVerify c2.

(** [n / d] rounded to the nearest integer, ties to the even one, for
    [0 <= n] and [0 < d]. *)
Definition nearest_even (n d : Z) : Z :=
  let q := n / d in
  match 2 * (n mod d) ?= d with
  | Lt => q
  | Eq => if Z.even q then q else q + 1
  | Gt => q + 1
  end.

(** A duration to the nearest second, ties to the even one, computed on
    the integer number of nanoseconds. *)
Definition nearest_second (d : time.Duration) : Z :=
  Z.sgn d * nearest_even (Z.abs d) time.Second.

(** The configurations differ in a duration that is a whole number of
    seconds in both. *)
Definition whole_second_change (c c' : Config) : Prop :=
  ∃ k k', k ≠ k' ∧
    time.in_range (k * time.Second) ∧ time.in_range (k' * time.Second) ∧
    (ConnectTimeout c = k * time.Second ∧ ConnectTimeout c' = k' * time.Second ∨
     RequestTimeout c = k * time.Second ∧ RequestTimeout c' = k' * time.Second ∨
     IdleConnTimeout c = k * time.Second ∧ IdleConnTimeout c' = k' * time.Second ∨
     ResponseHeaderTimeout c = k * time.Second ∧ ResponseHeaderTimeout c' = k' * time.Second ∨
     TLSHandshakeTimeout c = k * time.Second ∧ TLSHandshakeTimeout c' = k' * time.Second ∨
     ExpectContinueTimeout c = k * time.Second ∧ ExpectContinueTimeout c' = k' * time.Second).

(** ** Counting in lists *)
Section TallyDefinitions.
Context {A : Type}.

(** How many elements of the list satisfy [P]. *)
Fixpoint tally (P : A → bool) (l : list A) : nat :=
  match l with
  | [] => 0
  | x :: l' => Nat.b2n (P x) + tally P l'
  end.

(** The sum of the weights of the elements. *)
Fixpoint total (μ : A → nat) (l : list A) : nat :=
  match l with
  | [] => 0
  | x :: l' => μ x + total μ l'
  end.

End TallyDefinitions.

(** ** Worlds, what a construction does, and the points of a caller *)
Section StatementDefinitions.
Context `{url.API}.

(** What lines 90-96 log for [c]. *)
Definition skip_verify_events (c : Config) : list logrus.Entry :=
  if ProxyTLSSkipVerify c then [logrus.Warnf skip_verify_warning] else [].

(** What lines 98-109 log for [c]. *)
Definition proxy_events (c : Config) : list logrus.Entry :=
  if negb (String.eqb (ProxyURL c) "") then
    match url.Parse (ProxyURL c) with
    | inr err => [logrus.Warnf (invalid_proxy_warning (ProxyURL c) err)]
    | inl _ => []
    end
  else [].

(** The proxy function lines 98-109 choose for [c]. *)
Definition resolved_proxy (c : Config) : http.ProxyFunc :=
  if negb (String.eqb (ProxyURL c) "") then
    match url.Parse (ProxyURL c) with
    | inr _ => http.ProxyFromEnvironment
    | inl proxyURL => http.ProxyURL proxyURL
    end
  else http.ProxyFromEnvironment.

(** The transport [GetClient] has made for [c] when it allocates the
    client, and that client. *)
Definition built_transport (c : Config) : http.Transport :=
  set_Proxy
    (if ProxyTLSSkipVerify c
     then set_TLSClientConfig (new_Transport c) (Some {| tls.InsecureSkipVerify := true |})
     else new_Transport c)
    (resolved_proxy c).

Definition built_client (c : Config) : http.Client :=
  {| http.Client_Transport := built_transport c;
     http.Client_Timeout := RequestTimeout c |}.

(** The world with more entries in the log. *)
Definition log_more (w : world) (es : list logrus.Entry) : world :=
  {| manager := manager w; heap := heap w; logged := logged w ++ es |}.

(** Between two calls nobody holds the lock, the map has been made, and
    every entry of it is the address of the client constructed for a
    configuration with the fingerprint of the entry. *)
Definition settled (w : world) : Prop :=
  lock (manager w) = sync.zero ∧
  ∃ cm, clients (manager w) = Some cm ∧
        ∀ f p, cm !! f = Some p →
               ∃ c, getFingerprint c = f ∧ heap w !! p = Some (built_client c).

(** The fingerprint of [c] is not a key of the map yet. *)
Definition not_cached (c : Config) (w : world) : Prop :=
  ∃ cm, clients (manager w) = Some cm ∧ cm !! getFingerprint c = None.

(** The places of [GetClient] between two atomic actions. *)
Inductive point :=
| AtRLock                                    (* before [m.lock.RLock()] *)
| AtFastGet                                  (* read-locked, before the lookup *)
| AtRUnlock (found : option ptr)             (* read-locked, before [RUnlock] *)
| AtLock                                     (* before [m.lock.Lock()] *)
| AtSlowGet                                  (* locked, before the second lookup *)
| AtBuild (msgs : list string) (transport : http.Transport)
                                             (* locked, warnings left to emit, then the allocation *)
| AtStore (newClient : ptr)                  (* locked, before the map is written *)
| AtUnlock (client : ptr)                    (* locked, before the deferred [Unlock] *)
| AtReturn (client : ptr).                   (* returned *)

(** The messages of the warnings a construction for [c] emits. *)
Definition warning_texts (c : Config) : list string :=
  logrus.Message <$> (skip_verify_events c ++ proxy_events c).

(** The rest of [GetClient config] from a point on. *)
Definition cont (config : Config) (pt : point) : prog ptr :=
  match pt with
  | AtRLock => GetClient config
  | AtFastGet =>
      found ← map_get (getFingerprint config);
      RUnlock ;;
      match found with
      | Some client => mret client
      | None => slow_path config
      end
  | AtRUnlock found =>
      RUnlock ;;
      match found with
      | Some client => mret client
      | None => slow_path config
      end
  | AtLock => slow_path config
  | AtSlowGet =>
      found ← map_get (getFingerprint config);
      match found with
      | Some client => Unlock ;; mret client
      | None => build config
      end
  | AtBuild msgs transport =>
      foldr (λ msg rest, Warnf msg ;; rest) (store_new_client config transport) msgs
  | AtStore newClient =>
      map_set (getFingerprint config) newClient ;; Unlock ;; mret newClient
  | AtUnlock client => Unlock ;; mret client
  | AtReturn client => mret client
  end.

(** One atomic action, from point to point. *)
Definition point_step (config : Config) (pt : point) (w : world) : outcome (world * point) :=
  let l := lock (manager w) in
  match pt with
  | AtRLock =>
      if sync.writer l then Blocked
      else Next (with_lock w {| sync.readers := S (sync.readers l); sync.writer := false |},
                 AtFastGet)
  | AtFastGet =>
      Next (w, AtRUnlock (match clients (manager w) with
                          | Some cm => cm !! getFingerprint config
                          | None => None
                          end))
  | AtRUnlock found =>
      match sync.readers l with
      | O => Panicked
      | S n => Next (with_lock w {| sync.readers := n; sync.writer := sync.writer l |},
                     match found with
                     | Some client => AtReturn client
                     | None => AtLock
                     end)
      end
  | AtLock =>
      if sync.writer l then Blocked
      else match sync.readers l with
           | O => Next (with_lock w {| sync.readers := 0; sync.writer := true |}, AtSlowGet)
           | S _ => Blocked
           end
  | AtSlowGet =>
      Next (w, match match clients (manager w) with
                     | Some cm => cm !! getFingerprint config
                     | None => None
                     end with
               | Some client => AtUnlock client
               | None => AtBuild (warning_texts config) (built_transport config)
               end)
  | AtBuild (msg :: msgs) transport =>
      Next (log_more w [logrus.Warnf msg], AtBuild msgs transport)
  | AtBuild [] transport =>
      Next ({| manager := manager w;
               heap := heap w ++ [{| http.Client_Transport := transport;
                                     http.Client_Timeout := RequestTimeout config |}];
               logged := logged w |},
            AtStore (length (heap w)))
  | AtStore newClient =>
      match clients (manager w) with
      | Some cm =>
          Next (with_manager w {| clients := Some (<[getFingerprint config := newClient]> cm);
                                  lock := l |},
                AtUnlock newClient)
      | None => Panicked
      end
  | AtUnlock client =>
      if sync.writer l
      then Next (with_lock w {| sync.readers := sync.readers l; sync.writer := false |},
                 AtReturn client)
      else Panicked
  | AtReturn client => Blocked
  end.

(** The points at which a caller holds the read lock, holds the write
    lock, and has allocated a client that is not in the map yet. *)
Definition reading (pt : point) : bool :=
  match pt with AtFastGet | AtRUnlock _ => true | _ => false end.

Definition writing (pt : point) : bool :=
  match pt with AtSlowGet | AtBuild _ _ | AtStore _ | AtUnlock _ => true | _ => false end.

Definition storing (pt : point) : bool :=
  match pt with AtStore _ => true | _ => false end.

(** What a caller at a point knows about the map. *)
Definition point_ok (c : Config) (pt : point) (cm : gmap string ptr) (hp : list http.Client)
  : Prop :=
  match pt with
  | AtRUnlock (Some client) | AtUnlock client | AtReturn client =>
      cm !! getFingerprint c = Some client
  | AtBuild _ transport =>
      cm !! getFingerprint c = None ∧ transport = built_transport c
  | AtStore newClient =>
      cm !! getFingerprint c = None ∧ hp !! newClient = Some (built_client c)
  | _ => True
  end.

(** An upper bound of the number of actions a caller has left. *)
Definition steps_left (pt : point) : nat :=
  match pt with
  | AtRLock => 10
  | AtFastGet => 9
  | AtRUnlock _ => 8
  | AtLock => 7
  | AtSlowGet => 6
  | AtBuild msgs _ => 3 + length msgs
  | AtStore _ => 2
  | AtUnlock _ => 1
  | AtReturn _ => 0
  end.

Definition has_returned (pt : point) : bool :=
  match pt with AtReturn _ => true | _ => false end.

(** *** The invariant of callers in parallel *)
Section Callers.

(** The callers, and the world on which they start with its map. *)
Variable configs : list Config.
Variable w0 : world.
Variable cm0 : gmap string ptr.

(** The world and the points of the callers fit together. *)
Record good (w : world) (pts : list point) : Prop := {
  good_length : length pts = length configs;
  good_readers : sync.readers (lock (manager w)) = tally reading pts;
  good_writer : Nat.b2n (sync.writer (lock (manager w))) = tally writing pts;
  good_map :
    ∃ cm, clients (manager w) = Some cm ∧
          (∀ f p, cm !! f = Some p →
                  ∃ c, getFingerprint c = f ∧ heap w !! p = Some (built_client c)) ∧
          cm0 ⊆ cm ∧
          (∀ f, is_Some (cm !! f) →
                is_Some (cm0 !! f) ∨ ∃ c, c ∈ configs ∧ getFingerprint c = f) ∧
          (length (heap w) + size cm0 = length (heap w0) + size cm + tally storing pts)%nat ∧
          (∀ i c pt, configs !! i = Some c → pts !! i = Some pt →
                     point_ok c pt cm (heap w))
}.

(** The invariant: every caller is at some point of [GetClient], and the
    world fits these points. *)
Definition inv (s : system) : Prop :=
  ∃ pts, callers s = zip_with cont configs pts ∧ good (shared s) pts.

End Callers.

End StatementDefinitions.

(** ** Definitions for further properties of the manager *)

(** The duration is a whole number of seconds, as the durations are that
    the settings give in seconds. *)
Definition whole_second_duration (d : time.Duration) : Prop :=
  time.in_range d ∧ Z.rem d time.Second = 0.

(** Every duration of the configuration is a whole number of seconds. *)
Definition whole_second_config (c : Config) : Prop :=
  whole_second_duration (ConnectTimeout c) ∧
  whole_second_duration (RequestTimeout c) ∧
  whole_second_duration (IdleConnTimeout c) ∧
  whole_second_duration (ResponseHeaderTimeout c) ∧
  whole_second_duration (TLSHandshakeTimeout c) ∧
  whole_second_duration (ExpectContinueTimeout c).

(** The two durations are whole numbers of seconds, and not the same. *)
Definition whole_seconds_apart (d1 d2 : time.Duration) : Prop :=
  whole_second_duration d1 ∧ whole_second_duration d2 ∧ d1 ≠ d2.

(** The configurations differ in a duration that is a whole number of
    seconds in both, in a count, in a boolean or in the proxy URL. *)
Definition differ_in_whole_seconds (c1 c2 : Config) : Prop :=
  whole_seconds_apart (ConnectTimeout c1) (ConnectTimeout c2) ∨
  whole_seconds_apart (RequestTimeout c1) (RequestTimeout c2) ∨
  whole_seconds_apart (IdleConnTimeout c1) (IdleConnTimeout c2) ∨
  MaxIdleConns c1 ≠ MaxIdleConns c2 ∨
  MaxIdleConnsPerHost c1 ≠ MaxIdleConnsPerHost c2 ∨
  whole_seconds_apart (ResponseHeaderTimeout c1) (ResponseHeaderTimeout c2) ∨
  DisableCompression c1 ≠ DisableCompression c2 ∨
  WriteBufferSize c1 ≠ WriteBufferSize c2 ∨
  ReadBufferSize c1 ≠ ReadBufferSize c2 ∨
  ForceAttemptHTTP2 c1 ≠ ForceAttemptHTTP2 c2 ∨
  whole_seconds_apart (TLSHandshakeTimeout c1) (TLSHandshakeTimeout c2) ∨
  whole_seconds_apart (ExpectContinueTimeout c1) (ExpectContinueTimeout c2) ∨
  ProxyURL c1 ≠ ProxyURL c2 ∨
  ProxyTLSSkipVerify c1 ≠ ProxyTLSSkipVerify c2.

Section MoreDefinitions.
Context `{url.API}.

(** The client has the settings of the configuration: what lines 73-88
    and 111-114 copy, and the keep-alive of 30 seconds. *)
Definition carries (cl : http.Client) (c : Config) : Prop :=
  let t := http.Client_Transport cl in
  http.Client_Timeout cl = RequestTimeout c ∧
  net.Timeout (http.DialContext t) = ConnectTimeout c ∧
  net.KeepAlive (http.DialContext t) = 30 * time.Second ∧
  http.ForceAttemptHTTP2 t = ForceAttemptHTTP2 c ∧
  http.MaxIdleConns t = MaxIdleConns c ∧
  http.MaxIdleConnsPerHost t = MaxIdleConnsPerHost c ∧
  http.IdleConnTimeout t = IdleConnTimeout c ∧
  http.TLSHandshakeTimeout t = TLSHandshakeTimeout c ∧
  http.ExpectContinueTimeout t = ExpectContinueTimeout c ∧
  http.ResponseHeaderTimeout t = ResponseHeaderTimeout c ∧
  http.DisableCompression t = DisableCompression c ∧
  http.WriteBufferSize t = WriteBufferSize c ∧
  http.ReadBufferSize t = ReadBufferSize c.

(** A caller that asks the manager for a client for each configuration
    of a list, one call after the other. *)
Fixpoint call_each (configs : list Config) : prog (list ptr) :=
  match configs with
  | [] => mret []
  | config :: rest =>
      client ← GetClient config;
      clients ← call_each rest;
      mret (client :: clients)
  end.

(** A settled world in which no client is stored under two keys. *)
Definition tidy (w : world) : Prop :=
  settled w ∧
  ∀ cm f1 f2 p, clients (manager w) = Some cm →
                cm !! f1 = Some p → cm !! f2 = Some p → f1 = f2.

(** The keys of the map of the manager. *)
Definition cached_keys (w : world) : gset string :=
  match clients (manager w) with
  | Some cm => dom cm
  | None => ∅
  end.

End MoreDefinitions.

(** The new manager is settled and caches nothing. *)
Ltac fresh_is_settled :=
  split; [reflexivity|]; exists ∅; split; [reflexivity|];
  intros ? ? Hempty; rewrite lookup_empty in Hempty; discriminate Hempty.

Ltac fresh_has_no_entry :=
  exists ∅; split; [reflexivity | apply lookup_empty].

(** * Lemmas and theorems *)

(** ** Strings that are cut at a delimiter *)
Section Delimited.

Lemma cut_at_delimiter c x x' r r' :
  absent c x → absent c x' →
  x +:+ String c r = x' +:+ String c r' →
  x = x' ∧ r = r'.
Proof.
  revert x'. induction x as [|a x IH]; intros [|a' x'] Hx Hx' E; simpl in *.
  - by inversion E.
  - inversion E; subst. by destruct Hx' as [[] _].
  - inversion E; subst. by destruct Hx as [[] _].
  - inversion E; subst. destruct Hx as [_ Hx], Hx' as [_ Hx'].
    destruct (IH x' Hx Hx' ltac:(done)) as [-> ->]. done.
Qed.

Lemma absent_app c x y : absent c x → absent c y → absent c (x +:+ y).
Proof. induction x; simpl; [done|]. intros [? ?] ?. split; auto. Qed.

Lemma digits_absent c u :
  uint_of_char c (Some Decimal.Nil) = None →
  absent c (NilEmpty.string_of_uint u).
Proof.
  intros Hc. induction u; simpl; try done; (split; [|done]); intros <-; discriminate Hc.
Qed.

Lemma list_ascii_of_string_app x y :
  list_ascii_of_string (x +:+ y) = list_ascii_of_string x ++ list_ascii_of_string y.
Proof. induction x; simpl; [done|]. by f_equal. Qed.

Lemma list_ascii_of_string_inj x y :
  list_ascii_of_string x = list_ascii_of_string y → x = y.
Proof.
  intros E. rewrite <- (string_of_list_ascii_of_string x), E.
  apply string_of_list_ascii_of_string.
Qed.

Lemma string_app_inv_tail x y z : x +:+ z = y +:+ z → x = y.
Proof.
  intros E. apply list_ascii_of_string_inj.
  apply (f_equal list_ascii_of_string) in E.
  rewrite !list_ascii_of_string_app in E. by apply app_inv_tail in E.
Qed.

End Delimited.

(** ** What the verbs print *)
Section Verbs.

Lemma uint_text_inj u u' :
  NilEmpty.string_of_uint u = NilEmpty.string_of_uint u' → u = u'.
Proof.
  intros E. apply (f_equal NilEmpty.uint_of_string) in E.
  rewrite !NilEmpty.usu in E. by injection E.
Qed.

Lemma uint_text_head u c r :
  NilEmpty.string_of_uint u = String c r →
  uint_of_char c (Some Decimal.Nil) ≠ None.
Proof.
  intros E Hc. pose proof (digits_absent c u Hc) as A.
  rewrite E in A. by destruct A as [[] _].
Qed.

Lemma verb_d_inj n n' : fmt.verb_d n = fmt.verb_d n' → n = n'.
Proof.
  unfold fmt.verb_d. intros E. apply DecimalZ.to_int_inj.
  apply (f_equal NilEmpty.int_of_string) in E.
  rewrite !NilEmpty.isi in E. by injection E.
Qed.

Lemma verb_t_inj b b' : fmt.verb_t b = fmt.verb_t b' → b = b'.
Proof. by destruct b, b'. Qed.

Lemma verb_d_absent c n :
  c ≠ "-"%char → uint_of_char c (Some Decimal.Nil) = None → absent c (fmt.verb_d n).
Proof.
  intros Hm Hc. unfold fmt.verb_d.
  destruct (Z.to_int n); simpl; [|split; [done|]]; by apply digits_absent.
Qed.

Lemma verb_t_bar b : absent "|" (fmt.verb_t b).
Proof. destruct b; simpl; repeat split; done. Qed.

Lemma verb_f0_absent c x :
  c ∈ ["s"; "|"]%char → absent c (fmt.verb_f0 x).
Proof.
  intros Hc.
  assert (uint_of_char c (Some Decimal.Nil) = None ∧ c ≠ "-"%char ∧
          absent c "NaN" ∧ absent c "+Inf" ∧ absent c "-Inf" ∧ absent c "0")
    as (Hd & Hm & Hn & Hp & Hq & Hz).
  { apply list_elem_of_In in Hc. simpl in Hc.
    destruct Hc as [<-|[<-|[]]]; simpl; repeat split; done. }
  destruct x as [s|s| |s m e]; simpl; try done.
  - destruct s; simpl in *; tauto.
  - by destruct s.
  - apply absent_app; [destruct s; simpl; done | by apply digits_absent].
Qed.

End Verbs.

(** ** The fingerprint, field by field *)
Section Fingerprint.

Lemma token_seconds d d' r r' :
  seconds_text d +:+ String "s" r = seconds_text d' +:+ String "s" r' →
  seconds_text d = seconds_text d' ∧ r = r'.
Proof.
  apply cut_at_delimiter; apply verb_f0_absent; set_solver.
Qed.

Lemma token_int n n' r r' :
  fmt.verb_d n +:+ String "|" r = fmt.verb_d n' +:+ String "|" r' →
  n = n' ∧ r = r'.
Proof.
  intros E. apply cut_at_delimiter in E as [E ->]; try by apply verb_d_absent.
  by apply verb_d_inj in E.
Qed.

Lemma token_bool b b' r r' :
  fmt.verb_t b +:+ String "|" r = fmt.verb_t b' +:+ String "|" r' →
  b = b' ∧ r = r'.
Proof.
  intros E. apply cut_at_delimiter in E as [E ->]; try apply verb_t_bar.
  by apply verb_t_inj in E.
Qed.

(** The proxy URL is any string at all, separators and tags included;
    it is found again from the end of the fingerprint. *)
Lemma token_tail x x' b b' :
  x +:+ "|ptls:" +:+ fmt.verb_t b = x' +:+ "|ptls:" +:+ fmt.verb_t b' →
  x = x' ∧ b = b'.
Proof.
  intros E.
  assert (b = b') as <-.
  { apply (f_equal list_ascii_of_string) in E.
    rewrite !list_ascii_of_string_app in E.
    apply (f_equal (@rev ascii)) in E. rewrite !rev_app_distr in E.
    by destruct b, b'. }
  split; [|done]. by apply string_app_inv_tail in E.
Qed.

(** Equal fingerprints: the same text for every duration, and the same
    value for every other field. *)
Lemma fingerprint_fields c1 c2 :
  getFingerprint c1 = getFingerprint c2 →
  seconds_text (ConnectTimeout c1) = seconds_text (ConnectTimeout c2) ∧
  seconds_text (RequestTimeout c1) = seconds_text (RequestTimeout c2) ∧
  seconds_text (IdleConnTimeout c1) = seconds_text (IdleConnTimeout c2) ∧
  MaxIdleConns c1 = MaxIdleConns c2 ∧
  MaxIdleConnsPerHost c1 = MaxIdleConnsPerHost c2 ∧
  seconds_text (ResponseHeaderTimeout c1) = seconds_text (ResponseHeaderTimeout c2) ∧
  DisableCompression c1 = DisableCompression c2 ∧
  WriteBufferSize c1 = WriteBufferSize c2 ∧
  ReadBufferSize c1 = ReadBufferSize c2 ∧
  ForceAttemptHTTP2 c1 = ForceAttemptHTTP2 c2 ∧
  seconds_text (TLSHandshakeTimeout c1) = seconds_text (TLSHandshakeTimeout c2) ∧
  seconds_text (ExpectContinueTimeout c1) = seconds_text (ExpectContinueTimeout c2) ∧
  ProxyURL c1 = ProxyURL c2 ∧
  ProxyTLSSkipVerify c1 = ProxyTLSSkipVerify c2.
Proof.
  unfold getFingerprint, fmt.verb_s. cbn [String.append]. intros E.
  injection E as E. apply token_seconds in E as [H1 E].
  injection E as E. apply token_seconds in E as [H2 E].
  injection E as E. apply token_seconds in E as [H3 E].
  injection E as E. apply token_int in E as [H4 E].
  injection E as E. apply token_int in E as [H5 E].
  injection E as E. apply token_seconds in E as [H6 E].
  injection E as E. apply token_bool in E as [H7 E].
  injection E as E. apply token_int in E as [H8 E].
  injection E as E. apply token_int in E as [H9 E].
  injection E as E. apply token_bool in E as [H10 E].
  injection E as E. apply token_seconds in E as [H11 E].
  injection E as E. apply token_seconds in E as [H12 E].
  injection E as E. apply token_tail in E as [H13 H14].
  done.
Qed.

End Fingerprint.

(** ** Whole seconds are printed exactly *)
Section WholeSeconds.

Lemma iter_xO_succ m p :
  Pos.iter xO m (Pos.succ p) = xO (Pos.iter xO m p).
Proof. apply Pos.iter_succ. Qed.

Lemma digits2_pos_iter m p :
  digits2_pos (Pos.iter xO m p) = (digits2_pos m + p)%positive.
Proof.
  induction p as [|p IH] using Pos.peano_ind.
  - simpl. lia.
  - rewrite iter_xO_succ. simpl. rewrite IH. lia.
Qed.

Lemma Zpos_iter_xO m p :
  Zpos (Pos.iter xO m p) = Zpos m * 2 ^ Zpos p.
Proof.
  induction p as [|p IH] using Pos.peano_ind.
  - simpl. lia.
  - rewrite iter_xO_succ, Pos2Z.inj_xO, IH, Pos2Z.inj_succ, Z.pow_succ_r by lia. lia.
Qed.

Lemma digits2_pos_lower m :
  2 ^ (Zpos (digits2_pos m) - 1) <= Zpos m.
Proof.
  induction m as [m IH|m IH|]; simpl digits2_pos.
  - rewrite Pos2Z.inj_succ.
    replace (Z.succ (Zpos (digits2_pos m)) - 1) with (Z.succ (Zpos (digits2_pos m) - 1)) by lia.
    rewrite Z.pow_succ_r by lia. lia.
  - rewrite Pos2Z.inj_succ.
    replace (Z.succ (Zpos (digits2_pos m)) - 1) with (Z.succ (Zpos (digits2_pos m) - 1)) by lia.
    rewrite Z.pow_succ_r by lia. lia.
  - simpl. lia.
Qed.

Lemma digits2_pos_53 m : Zpos m < 2 ^ 53 → Zpos (digits2_pos m) <= 53.
Proof.
  intros Hm. pose proof (digits2_pos_lower m) as Hl.
  destruct (Z_le_gt_dec (Zpos (digits2_pos m)) 53) as [|Hgt]; [done|].
  assert (2 ^ 53 <= 2 ^ (Zpos (digits2_pos m) - 1)) by (apply Z.pow_le_mono_r; lia).
  lia.
Qed.

Lemma round_aux_exact s mz ez :
  Zpos (digits2_pos mz) = 53 → -1074 <= ez <= 971 →
  binary_round_aux float64.prec float64.emax s (Zpos mz) ez loc_Exact = S754_finite s mz ez.
Proof.
  intros Hd He.
  assert (F : fexp float64.prec float64.emax (Zdigits2 (Zpos mz) + ez) - ez = 0).
  { simpl Zdigits2. rewrite Hd. unfold fexp, emin, float64.prec, float64.emax. lia. }
  unfold binary_round_aux, shr_fexp. rewrite F. simpl.
  simpl Zdigits2 in F. rewrite F. simpl.
  unfold float64.emax, float64.prec.
  destruct (ez <=? 1024 - 53) eqn:Hle; [done|]. lia.
Qed.

(** [float64(n)] of an integer below 2^53 is that integer. *)
Lemma binary_round_small s m :
  Zpos m < 2 ^ 53 →
  ∃ mz ez, binary_round float64.prec float64.emax s m 0 = S754_finite s mz ez ∧
           float64.round_mantissa mz ez = Npos m.
Proof.
  intros Hm. pose proof (digits2_pos_53 m Hm) as Hd.
  unfold binary_round.
  assert (F : fexp float64.prec float64.emax (Zpos (digits2_pos m) + 0) = Zpos (digits2_pos m) - 53).
  { unfold fexp, emin, float64.prec, float64.emax. lia. }
  rewrite F. unfold shl_align.
  destruct (Zpos (digits2_pos m) - 53 - 0) as [|p|p] eqn:Hp; try lia.
  - exists m, 0. rewrite round_aux_exact by lia. done.
  - exists (Pos.iter xO m p), (Zpos (digits2_pos m) - 53).
    rewrite round_aux_exact; [split; [done|] | rewrite digits2_pos_iter; lia | lia].
    replace (Zpos (digits2_pos m) - 53) with (Zneg p) by lia.
    unfold float64.round_mantissa.
    assert (E : (Npos (Pos.iter xO m p) = Npos m * N.shiftl 1 (Npos p))%N).
    { apply N2Z.inj. rewrite N2Z.inj_mul, N.shiftl_1_l, N2Z.inj_pow. simpl.
      apply Zpos_iter_xO. }
    assert (N.shiftl 1 (Npos p) ≠ 0%N) by (rewrite N.shiftl_1_l; by apply N.pow_nonzero).
    rewrite E, N.div_mul, N.Div0.mod_mul by done. simpl N.mul.
    destruct (N.shiftl 1 (Npos p)) eqn:Hs; [done|]. done.
Qed.

Lemma of_int_text k :
  - 2 ^ 53 < k < 2 ^ 53 → fmt.verb_f0 (float64.of_int k) = fmt.verb_d k.
Proof.
  intros Hk. unfold float64.of_int, binary_normalize.
  destruct k as [|m|m]; [done| |].
  - destruct (binary_round_small false m) as (mz & ez & -> & E); [lia|].
    simpl. by rewrite E.
  - destruct (binary_round_small true m) as (mz & ez & -> & E); [lia|].
    simpl. by rewrite E.
Qed.

Lemma of_int_cases k :
  - 2 ^ 53 < k < 2 ^ 53 →
  float64.of_int k = S754_zero false ∨ ∃ s m e, float64.of_int k = S754_finite s m e.
Proof.
  intros Hk. unfold float64.of_int, binary_normalize.
  destruct k as [|m|m]; [by left| |]; right.
  - destruct (binary_round_small false m) as (mz & ez & -> & E); [lia|]. eauto.
  - destruct (binary_round_small true m) as (mz & ez & -> & E); [lia|]. eauto.
Qed.

(** A whole number of seconds is printed as that number. *)
Lemma seconds_text_whole k :
  - 2 ^ 53 < k < 2 ^ 53 →
  seconds_text (k * time.Second) = fmt.verb_d k.
Proof.
  intros Hk. unfold seconds_text, time.Seconds.
  rewrite Z.quot_mul, Z.rem_mul by done.
  rewrite <- (of_int_text k Hk).
  change (float64.div (float64.of_int 0) (float64.of_int 1000000000))
    with (S754_zero false).
  destruct (of_int_cases k Hk) as [-> | (s & m & e & ->)]; done.
Qed.

End WholeSeconds.

(** ** The fingerprint: coarsening and discrimination *)
Section FingerprintClaims.

Example fingerprint_sample :
  getFingerprint sample =
  "ct:15s|rt:600s|it:120s|mic:100|mich:50|rht:600s|dc:false|wbs:32768|rbs:32768|fh2:true|tlst:10s|ect:1s|proxy:|ptls:false".
Proof. vm_compute. reflexivity. Qed.

(** [%.0f] rounds to the nearest whole second, ties to the even one, and
    keeps the sign. *)
Example seconds_text_rounds :
  map (λ ms, seconds_text (ms * time.Millisecond))
      [0; 400; 500; 501; 1400; 1500; 1600; 2400; 2500; 2501; -400; -1500] =
  ["0"; "0"; "0"; "1"; "1"; "2"; "2"; "2"; "2"; "3"; "-0"; "-2"].
Proof. vm_compute. reflexivity. Qed.

(** Up to three seconds, a duration of whole milliseconds prints as its
    nearest second (0.5s as 0, 1.5s and 2.5s as 2). *)
Example seconds_text_of_milliseconds :
  forallb (λ ms, String.eqb (seconds_text (ms * time.Millisecond))
                            (fmt.verb_d (nearest_even ms 1000)))
          (Z.of_nat <$> seq 0 3001) = true.
Proof. vm_compute. reflexivity. Qed.

(** The two roundings of [Seconds] can move a duration across the
    boundary: 8589934593.499999999s prints as 8589934594. *)
Example seconds_text_double_rounding :
  seconds_text 8589934593499999999 = "8589934594".
Proof. vm_compute. reflexivity. Qed.




(** 1.6s and 2.4s do collapse, although their whole parts differ. *)
Example collapse_across_whole_seconds :
  getFingerprint (with_connect (1600 * time.Millisecond)) =
  getFingerprint (with_connect (2400 * time.Millisecond)).
Proof. vm_compute. reflexivity. Qed.

(** Durations of a whole number of seconds are told apart. *)
Lemma whole_seconds_discriminate k k' :
  - 2 ^ 53 < k < 2 ^ 53 → - 2 ^ 53 < k' < 2 ^ 53 →
  seconds_text (k * time.Second) = seconds_text (k' * time.Second) → k = k'.
Proof.
  intros Hk Hk' E. rewrite !seconds_text_whole in E by done. by apply verb_d_inj.
Qed.

(** Durations that are whole seconds have different texts. *)
Lemma whole_second_duration_text d d' :
  whole_second_duration d → whole_second_duration d' →
  seconds_text d = seconds_text d' → d = d'.
Proof.
  unfold whole_second_duration, time.in_range, time.MinDuration, time.MaxDuration,
    time.Second.
  intros [Hd Hr] [Hd' Hr'] E.
  pose proof (Z.quot_rem' d 1000000000) as Q. rewrite Hr in Q.
  pose proof (Z.quot_rem' d' 1000000000) as Q'. rewrite Hr' in Q'.
  change (2 ^ 63) with 9223372036854775808 in Hd, Hd'.
  assert (B : ∀ x, - 9223372036854775808 <= x <= 9223372036854775808 - 1 →
                   x = 1000000000 * (x ÷ 1000000000) + 0 →
                   - 2 ^ 53 < x ÷ 1000000000 < 2 ^ 53).
  { intros x Hx Hq. generalize dependent (x ÷ 1000000000). intros q Hq.
    change (2 ^ 53) with 9007199254740992. lia. }
  assert (d ÷ 1000000000 = d' ÷ 1000000000) as Hq; [|lia].
  apply whole_seconds_discriminate; [by apply B|by apply B|].
  unfold time.Second.
  replace (d ÷ 1000000000 * 1000000000) with d by lia.
  by replace (d' ÷ 1000000000 * 1000000000) with d' by lia.
Qed.

(** C4, as the claim states it, fails: 1.6s and 2.4s differ in their
    whole seconds (1 and 2), and both print as 2, so that the
    fingerprints are the same. Reading the whole seconds of a duration as
    its nearest second does not save the claim: 8589934593.499999999s is
    nearest to 8589934593 and prints, after the two roundings of
    [Seconds], as 8589934594, like 8589934594s. *)
Lemma whole_second_values_can_collide :
  (differ_at_precision (with_connect (1600 * time.Millisecond))
                       (with_connect (2400 * time.Millisecond)) ∧
   getFingerprint (with_connect (1600 * time.Millisecond)) =
   getFingerprint (with_connect (2400 * time.Millisecond))) ∧
  (differ_at_precision (with_connect 8589934593499999999)
                       (with_connect (8589934594 * time.Second)) ∧
   nearest_second 8589934593499999999 ≠ nearest_second (8589934594 * time.Second) ∧
   getFingerprint (with_connect 8589934593499999999) =
   getFingerprint (with_connect (8589934594 * time.Second))).
Proof.
  split; [split | split; [|split]].
  - left. unfold same_whole_part. vm_compute. discriminate.
  - vm_compute. reflexivity.
  - left. unfold same_whole_part. vm_compute. discriminate.
  - vm_compute. discriminate.
  - vm_compute. reflexivity.
Qed.

(** C4 (amended): two configurations that differ in a count, in a
    boolean, in the proxy URL, or in a duration that is a whole number
    of seconds in both, have different fingerprints, whatever the proxy
    URL contains and whatever the other durations are. *)
Theorem fingerprint_discriminates c1 c2 :
  differ_in_whole_seconds c1 c2 → getFingerprint c1 ≠ getFingerprint c2.
Proof.
  intros D E. apply fingerprint_fields in E.
  destruct E as (T1 & T2 & T3 & E4 & E5 & T6 & E7 & E8 & E9 & E10 & T11 & T12 & E13 & E14).
  unfold differ_in_whole_seconds, whole_seconds_apart in D.
  destruct D as [(A & B & N)|[(A & B & N)|[(A & B & N)|[N|[N|[(A & B & N)|
                [N|[N|[N|[N|[(A & B & N)|[(A & B & N)|[N|N]]]]]]]]]]]]];
    apply N; try done; by apply whole_second_duration_text.
Qed.

(** 120s and 121s of idle time. *)
Lemma fingerprint_discriminates_witness :
  getFingerprint (with_idle (120 * time.Second)) ≠
  getFingerprint (with_idle (121 * time.Second)).
Proof.
  apply (fingerprint_discriminates (with_idle (120 * time.Second))
                                   (with_idle (121 * time.Second))).
  unfold differ_in_whole_seconds, whole_seconds_apart, whole_second_duration,
    time.in_range.
  right. right. left. simpl. repeat split; vm_compute; (reflexivity || discriminate).
Defined.

(** A proxy URL that holds the text of a separator and of a tag is not
    taken for the fields that follow it. *)
Example proxy_text_is_not_confused :
  differ_in_whole_seconds (with_proxy "http://a|ptls:true" false)
                          (with_proxy "http://a" true) ∧
  getFingerprint (with_proxy "http://a|ptls:true" false) ≠
  getFingerprint (with_proxy "http://a" true).
Proof.
  split; [|vm_compute; discriminate].
  unfold differ_in_whole_seconds. simpl. do 12 right. left. discriminate.
Qed.

End FingerprintClaims.

(** ** One caller at a time *)
Section Sequential.
Context `{url.API}.

Fixpoint run_bind {A B} (p : prog A) (k : A → prog B) (w : world) {struct p} :
  run (p ≫= k) w =
  match run p w with
  | Next (a, w') => run (k a) w'
  | Blocked => Blocked
  | Panicked => Panicked
  end.
Proof.
  destruct p as [a|f]; simpl.
  - reflexivity.
  - destruct (f w) as [[w' p']| |]; [apply run_bind | reflexivity | reflexivity].
Qed.

Lemma run_ret {A} (a : A) (w : world) : run (mret a) w = Next (a, w).
Proof. reflexivity. Qed.

Lemma log_more_nil w : log_more w [] = w.
Proof. destruct w. unfold log_more. simpl. by rewrite app_nil_r. Qed.

Lemma log_more_app w es es' : log_more (log_more w es) es' = log_more w (es ++ es').
Proof. unfold log_more. simpl. by rewrite app_assoc. Qed.

Lemma run_Warnf msg w : run (Warnf msg) w = Next (tt, log_more w [logrus.Warnf msg]).
Proof. reflexivity. Qed.

(** Lines 90-96 on their own. *)
Lemma run_configure_proxy_tls c t w :
  run (configure_proxy_tls c t) w =
  Next (if ProxyTLSSkipVerify c
        then set_TLSClientConfig t (Some {| tls.InsecureSkipVerify := true |})
        else t,
        log_more w (skip_verify_events c)).
Proof.
  unfold configure_proxy_tls, skip_verify_events.
  destruct (ProxyTLSSkipVerify c).
  - rewrite run_bind, run_Warnf. reflexivity.
  - by rewrite run_ret, log_more_nil.
Qed.

(** Lines 98-109 on their own. *)
Lemma run_set_http_proxy c t w :
  run (set_http_proxy c t) w =
  Next (set_Proxy t (resolved_proxy c), log_more w (proxy_events c)).
Proof.
  unfold set_http_proxy, proxy_events, resolved_proxy.
  destruct (negb (String.eqb (ProxyURL c) "")).
  - destruct (url.Parse (ProxyURL c)) as [u|err].
    + by rewrite run_ret, log_more_nil.
    + rewrite run_bind, run_Warnf. reflexivity.
  - by rewrite run_ret, log_more_nil.
Qed.

(** A hit: the cached client, and the world as it was. *)
Lemma GetClient_hit c w cm p :
  lock (manager w) = sync.zero →
  clients (manager w) = Some cm →
  cm !! getFingerprint c = Some p →
  run (GetClient c) w = Next (p, w).
Proof.
  destruct w as [[cl lk] hp lg]. simpl. intros -> -> Hp.
  unfold GetClient. cbn. rewrite Hp. reflexivity.
Qed.

(** A miss: one client more, at the next address, under the fingerprint. *)
Lemma GetClient_miss c w cm :
  lock (manager w) = sync.zero →
  clients (manager w) = Some cm →
  cm !! getFingerprint c = None →
  run (GetClient c) w =
  Next (length (heap w),
        {| manager := {| clients := Some (<[getFingerprint c := length (heap w)]> cm);
                         lock := sync.zero |};
           heap := heap w ++ [built_client c];
           logged := logged w ++ skip_verify_events c ++ proxy_events c |}).
Proof.
  destruct w as [[cl lk] hp lg]. simpl. intros -> -> Hp.
  unfold GetClient. cbn. rewrite Hp. unfold slow_path. cbn. rewrite Hp.
  unfold build. rewrite run_bind, run_configure_proxy_tls.
  rewrite run_bind, run_set_http_proxy.
  unfold store_new_client, log_more. cbn. rewrite <- app_assoc. reflexivity.
Qed.

Lemma settled_fresh : settled fresh_world.
Proof. split; [done|]. exists ∅. split; [done|]. intros f p. by rewrite lookup_empty. Qed.

(** The two ways a call on a settled world goes. *)
Lemma GetClient_cases c w cm :
  settled w → clients (manager w) = Some cm →
  (∃ p c0, cm !! getFingerprint c = Some p ∧
           getFingerprint c0 = getFingerprint c ∧
           heap w !! p = Some (built_client c0) ∧
           run (GetClient c) w = Next (p, w)) ∨
  (cm !! getFingerprint c = None ∧
   ∃ w', run (GetClient c) w = Next (length (heap w), w') ∧
         clients (manager w') = Some (<[getFingerprint c := length (heap w)]> cm) ∧
         heap w' = heap w ++ [built_client c] ∧
         logged w' = logged w ++ skip_verify_events c ++ proxy_events c ∧
         settled w').
Proof.
  intros (Hl & cm0 & Hcm0 & Hptr) Hcm. rewrite Hcm in Hcm0. injection Hcm0 as <-.
  destruct (cm !! getFingerprint c) as [p|] eqn:Hp.
  - left. destruct (Hptr _ _ Hp) as (c0 & Hc0 & Hcl).
    exists p, c0. split; [done|]. split; [done|]. split; [done|]. by eapply GetClient_hit.
  - right. split; [done|]. eexists. split; [by eapply GetClient_miss|]. simpl.
    repeat split; try done.
    eexists. split; [done|]. intros f q. simpl.
    destruct (decide (getFingerprint c = f)) as [<-|Hne].
    + rewrite lookup_insert_eq. intros [= <-]. exists c. split; [done|].
      by rewrite lookup_app_r, Nat.sub_diag.
    + rewrite lookup_insert_ne by done. intros Hq.
      destruct (Hptr _ _ Hq) as (c0 & Hc0 & Hcl). exists c0. split; [done|].
      rewrite lookup_app_l; [done|]. by eapply lookup_lt_Some.
Qed.

(** Running a program alone is scheduling its caller, alone, step after
    step. *)
Fixpoint solo_run (p : prog ptr) (w : world) (client : ptr) (w' : world) {struct p} :
  run p w = Next (client, w') →
  ∃ n, exec (replicate n 0%nat) {| shared := w; callers := [p] |}
       = {| shared := w'; callers := [Ret client] |}.
Proof.
  destruct p as [b|f]; simpl.
  - intros [= -> ->]. by exists 0%nat.
  - destruct (f w) as [[w1 p1]| |] eqn:Hf; [|done|done]. intros Hrun.
    destruct (solo_run p1 w1 client w' Hrun) as [n Hn].
    exists (S n). simpl. unfold step, try_caller. simpl. rewrite Hf. exact Hn.
Qed.

End Sequential.

(** ** The claims about one caller at a time *)
Section SequentialClaims.
Context `{url.API}.

Lemma invalid_proxy_warning_names_value v err :
  ∃ before after, invalid_proxy_warning v err = before +:+ v +:+ after.
Proof. by eexists "Invalid proxy URL '", _. Qed.

Lemma proxy_events_no_skip_warning c :
  filter (λ e, e = logrus.Warnf skip_verify_warning) (proxy_events c) = [].
Proof.
  unfold proxy_events.
  destruct (negb _); [|done]. destruct (url.Parse _) as [u|err]; [done|].
  rewrite filter_cons_False; [done|]. intros E.
  apply (f_equal logrus.Message) in E. discriminate E.
Qed.

Lemma lookup_built c (hp : list http.Client) :
  (hp ++ [built_client c]) !! length hp = Some (built_client c).
Proof. by rewrite lookup_app_r, Nat.sub_diag. Qed.

(** A zero-valued manager, which [NewHTTPClientManager] never returns,
    has a nil map: the first call panics when it stores its client. *)
Remark zero_manager_panics c hp lg :
  run (GetClient c) {| manager := {| clients := None; lock := sync.zero |};
                       heap := hp; logged := lg |} = Panicked.
Proof.
  unfold GetClient. cbn. unfold slow_path. cbn. unfold build.
  rewrite run_bind, run_configure_proxy_tls.
  rewrite run_bind, run_set_http_proxy. reflexivity.
Qed.

(** C7: [GetClient] is total. On a manager made by
    [NewHTTPClientManager] and used through [GetClient] only, a call
    returns for every configuration and every behaviour of [url.Parse]
    (a malformed proxy URL included): it neither blocks nor panics, the
    pointer it returns is the address of an allocated client, the one
    constructed for a configuration with the same fingerprint, and the
    manager is left ready for the next call. *)
Theorem GetClient_total c w :
  settled w →
  ∃ p w' c0, run (GetClient c) w = Next (p, w') ∧
             getFingerprint c0 = getFingerprint c ∧
             heap w' !! p = Some (built_client c0) ∧
             settled w'.
Proof.
  intros Hw. pose proof Hw as (_ & cm & Hcm & _).
  destruct (GetClient_cases c w cm Hw Hcm)
    as [(p & c0 & _ & Hc0 & Hcl & Hrun) | (_ & w' & Hrun & _ & Hhp & _ & Hw')].
  - by exists p, w, c0.
  - exists (length (heap w)), w', c. split; [done|]. split; [done|]. split; [|done].
    rewrite Hhp. apply lookup_built.
Qed.


Lemma whole_second_change_fingerprint c c' :
  whole_second_change c c' → getFingerprint c' ≠ getFingerprint c.
Proof.
  intros (k & k' & Hne & Hk & Hk' & Hf) E. apply fingerprint_fields in E.
  destruct E as (T1 & T2 & T3 & _ & _ & T4 & _ & _ & _ & _ & T5 & T6 & _).
  unfold time.in_range, time.MinDuration, time.MaxDuration, time.Second in Hk, Hk'.
  assert (k' = k); [|congruence].
  destruct Hf as [[E1 E2]|[[E1 E2]|[[E1 E2]|[[E1 E2]|[[E1 E2]|[E1 E2]]]]]];
    rewrite E1, E2 in *; eapply whole_seconds_discriminate; try eassumption; lia.
Qed.

(** C2: two calls of [GetClient] in a row with the same configuration
    return the same pointer, and the second one constructs nothing (it
    leaves the world as it is). A further call with a configuration that
    differs in a duration of whole seconds (idle 121s for 120s) has
    another fingerprint; when that one is not cached yet, as on the new
    manager of the scenario, the call constructs a second client, at
    another address. *)
Theorem reuse_then_new_construction c c' w :
  settled w →
  ∃ p w1,
    run (GetClient c) w = Next (p, w1) ∧
    run (GetClient c) w1 = Next (p, w1) ∧
    (whole_second_change c c' →
     getFingerprint c' ≠ getFingerprint c ∧
     (not_cached c' w →
      ∃ p' w2, run (GetClient c') w1 = Next (p', w2) ∧
               p' ≠ p ∧
               heap w2 = heap w1 ++ [built_client c'])).
Proof.
  intros Hw. pose proof Hw as (_ & cm & Hcm & _).
  assert (Hfirst : ∃ p w1 cm1,
             run (GetClient c) w = Next (p, w1) ∧ settled w1 ∧
             clients (manager w1) = Some cm1 ∧
             cm1 !! getFingerprint c = Some p ∧ (p < length (heap w1))%nat ∧
             ∀ f, cm !! f = None → f ≠ getFingerprint c → cm1 !! f = None).
  { destruct (GetClient_cases c w cm Hw Hcm)
      as [(p & c0 & Hp & _ & Hcl & Hrun) | (Hfree & w' & Hrun & Hcm' & Hhp & _ & Hw')].
    - exists p, w, cm. split; [done|]. split; [done|]. split; [done|]. split; [done|].
      split; [by eapply lookup_lt_Some|done].
    - eexists _, w', _. split; [done|]. split; [done|]. split; [done|].
      split; [apply lookup_insert_eq|]. split; [rewrite Hhp, length_app; simpl; lia|].
      intros f Hf Hne. by rewrite lookup_insert_ne. }
  destruct Hfirst as (p & w1 & cm1 & R1 & Hw1 & Hcm1 & Hp & Hlt & Hother).
  exists p, w1. split; [done|].
  split; [eapply GetClient_hit; try done; apply Hw1|].
  intros Hch. pose proof (whole_second_change_fingerprint c c' Hch) as Hfp.
  split; [done|]. intros (cm' & Hcm' & Hnc). rewrite Hcm in Hcm'. injection Hcm' as <-.
  pose proof (Hother _ Hnc Hfp) as Hnc1.
  destruct (GetClient_cases c' w1 cm1 Hw1 Hcm1)
    as [(q & c0 & Hq & _) | (_ & w2 & Hrun & _ & Hhp & _)]; [congruence|].
  exists (length (heap w1)), w2. split; [done|]. split; [lia|done].
Qed.

(** C5, as the claim states it, fails in its last case: on a new
    manager, with an empty proxy URL and the skip-verify flag set, the
    call is a miss and a warning is emitted. *)
Lemma empty_proxy_with_skip_verify_warns :
  let c := with_proxy "" true in
  ProxyURL c = "" ∧
  settled (H := url.escape_checker) fresh_world ∧
  not_cached (H := url.escape_checker) c fresh_world ∧
  ∃ p w', run (H := url.escape_checker) (GetClient c) fresh_world = Next (p, w') ∧
          logged w' = [logrus.Warnf skip_verify_warning] ∧
          logged w' ≠ logged (H := url.escape_checker) fresh_world.
Proof.
  split; [reflexivity|]. split; [apply settled_fresh|].
  split; [exists ∅; split; [reflexivity|apply lookup_empty]|].
  eexists _, _. split.
  - apply (GetClient_miss (H := url.escape_checker) _ fresh_world ∅);
      [reflexivity|reflexivity|apply lookup_empty].
  - split; [reflexivity|discriminate].
Qed.

(** C5 (amended): on a miss the proxy is resolved by this case split. A
    non-empty proxy URL that parses pins the transport to that proxy, and
    proxy resolution emits no warning. A non-empty one that does not
    parse gives proxy resolution from the environment and exactly one
    warning, whose message contains the offending value; the call still
    succeeds. An empty one gives proxy resolution from the environment,
    and proxy resolution emits no warning. In every case the warning of
    the skip-verify flag is emitted as well when that flag is set, so
    that no warning at all is emitted only when the flag is unset. *)
Theorem proxy_resolution c w :
  settled w → not_cached c w →
  ∃ p w' cl,
    run (GetClient c) w = Next (p, w') ∧
    heap w' !! p = Some cl ∧
    (∀ proxyURL,
       ProxyURL c ≠ "" → url.Parse (ProxyURL c) = inl proxyURL →
       http.Proxy (http.Client_Transport cl) = Some (http.ProxyURL proxyURL) ∧
       logged w' = logged w ++ skip_verify_events c) ∧
    (∀ err,
       ProxyURL c ≠ "" → url.Parse (ProxyURL c) = inr err →
       http.Proxy (http.Client_Transport cl) = Some http.ProxyFromEnvironment ∧
       logged w' = logged w ++ skip_verify_events c ++
                   [logrus.Warnf (invalid_proxy_warning (ProxyURL c) err)] ∧
       ∃ before after,
         invalid_proxy_warning (ProxyURL c) err = before +:+ ProxyURL c +:+ after) ∧
    (ProxyURL c = "" →
       http.Proxy (http.Client_Transport cl) = Some http.ProxyFromEnvironment ∧
       logged w' = logged w ++ skip_verify_events c ∧
       (ProxyTLSSkipVerify c = false → logged w' = logged w)).
Proof.
  intros (Hl & _) (cm & Hcm & Hnc).
  eexists _, _, (built_client c). split; [by eapply GetClient_miss|]. simpl.
  split; [apply lookup_built|].
  unfold proxy_events, resolved_proxy, skip_verify_events.
  split; [|split].
  - intros u Hne Hu. apply String.eqb_neq in Hne. rewrite Hne, Hu. simpl.
    by rewrite app_nil_r.
  - intros err Hne Herr. apply String.eqb_neq in Hne. rewrite Hne, Herr. simpl.
    split; [done|]. split; [done|]. apply invalid_proxy_warning_names_value.
  - intros He. apply String.eqb_eq in He. rewrite He. simpl.
    rewrite app_nil_r. split; [done|]. split; [done|].
    intros ->. by rewrite app_nil_r.
Qed.

(** C6: when a client is constructed from a configuration with the
    skip-verify flag set, certificate verification is off for the proxy
    leg of its transport, and the construction emits the warning about it
    exactly once; with the flag unset, verification stays on and that
    warning is not emitted. *)
Theorem skip_verify_flagged c w :
  settled w → not_cached c w →
  ∃ p w' cl new,
    run (GetClient c) w = Next (p, w') ∧
    heap w' !! p = Some cl ∧
    logged w' = logged w ++ new ∧
    http.verifies (http.Client_Transport cl) http.ProxyLeg = negb (ProxyTLSSkipVerify c) ∧
    length (filter (λ e, e = logrus.Warnf skip_verify_warning) new)
    = (if ProxyTLSSkipVerify c then 1 else 0)%nat.
Proof.
  intros (Hl & _) (cm & Hcm & Hnc).
  eexists _, _, (built_client c), _. split; [by eapply GetClient_miss|]. simpl.
  split; [apply lookup_built|]. split; [done|].
  rewrite filter_app, proxy_events_no_skip_warning, app_nil_r.
  unfold skip_verify_events, http.verifies. simpl.
  by destruct (ProxyTLSSkipVerify c).
Qed.

(** C10: with the skip-verify flag set, the TLS configuration of the
    whole transport of the constructed client has verification off:
    it is skipped on every TLS connection of the client, to the upstream
    origins as well as to the proxy. *)
Theorem skip_verify_is_transport_wide c w :
  settled w → not_cached c w → ProxyTLSSkipVerify c = true →
  ∃ p w' cl,
    run (GetClient c) w = Next (p, w') ∧
    heap w' !! p = Some cl ∧
    http.TLSClientConfig (http.Client_Transport cl)
    = Some {| tls.InsecureSkipVerify := true |} ∧
    ∀ leg, http.verifies (http.Client_Transport cl) leg = false.
Proof.
  intros (Hl & _) (cm & Hcm & Hnc) Hskip.
  eexists _, _, (built_client c). split; [by eapply GetClient_miss|]. simpl.
  split; [apply lookup_built|].
  unfold http.verifies. simpl. by rewrite Hskip.
Qed.

End SequentialClaims.

(** *** The claims on a new manager *)

Lemma GetClient_total_witness :
  ∃ p w' c0,
    run (H := url.escape_checker) (GetClient (with_proxy "http://%zz" false)) fresh_world
    = Next (p, w') ∧
    getFingerprint c0 = getFingerprint (with_proxy "http://%zz" false) ∧
    heap w' !! p = Some (built_client c0) ∧
    settled w'.
Proof.
  apply (GetClient_total (H := url.escape_checker)
           (with_proxy "http://%zz" false) fresh_world).
  fresh_is_settled.
Defined.


(** The scenario of the specification: connect 15s, request 600s, idle
    120s and no proxy, twice, and then idle 121s. *)
Lemma reuse_then_new_construction_witness :
  ∃ p w1 p' w2,
    run (H := url.escape_checker) (GetClient sample) fresh_world = Next (p, w1) ∧
    run (GetClient sample) w1 = Next (p, w1) ∧
    getFingerprint (with_idle (121 * time.Second)) ≠ getFingerprint sample ∧
    run (GetClient (with_idle (121 * time.Second))) w1 = Next (p', w2) ∧
    p' ≠ p ∧
    heap w2 = heap w1 ++ [built_client (with_idle (121 * time.Second))].
Proof.
  destruct (reuse_then_new_construction (H := url.escape_checker)
              sample (with_idle (121 * time.Second)) fresh_world)
    as (p & w1 & R1 & R2 & Hnext).
  { fresh_is_settled. }
  destruct Hnext as (Hfp & Hnew).
  { exists 120, 121. split; [lia|].
    unfold time.in_range, time.MinDuration, time.MaxDuration, time.Second.
    split; [lia|]. split; [lia|]. right. right. left. split; reflexivity. }
  destruct Hnew as (p' & w2 & R3 & Hne & Hhp).
  { fresh_has_no_entry. }
  exists p, w1, p', w2. repeat split; assumption.
Defined.

Lemma proxy_resolution_witness :
  ∃ p w' cl,
    run (H := url.escape_checker) (GetClient (with_proxy "http://%zz" true)) fresh_world
    = Next (p, w') ∧
    heap w' !! p = Some cl ∧
    http.Proxy (http.Client_Transport cl) = Some http.ProxyFromEnvironment ∧
    logged w' = [logrus.Warnf skip_verify_warning;
                 logrus.Warnf (invalid_proxy_warning (H := url.escape_checker)
                                 "http://%zz" "invalid URL escape")].
Proof.
  destruct (proxy_resolution (H := url.escape_checker)
              (with_proxy "http://%zz" true) fresh_world)
    as (p & w' & cl & Hrun & Hcl & _ & Hbad & _).
  { fresh_is_settled. }
  { fresh_has_no_entry. }
  destruct (Hbad ("invalid URL escape" : url.Error (API := url.escape_checker)))
    as (Hproxy & Hlog & _).
  { discriminate. }
  { reflexivity. }
  exists p, w', cl. repeat split; assumption.
Defined.

Lemma skip_verify_flagged_witness :
  ∃ p w' cl new,
    run (H := url.escape_checker) (GetClient (with_proxy "http://%zz" true)) fresh_world
    = Next (p, w') ∧
    heap w' !! p = Some cl ∧
    logged w' = logged (H := url.escape_checker) fresh_world ++ new ∧
    http.verifies (http.Client_Transport cl) http.ProxyLeg = false ∧
    length (filter (λ e, e = logrus.Warnf skip_verify_warning) new) = 1%nat.
Proof.
  apply (skip_verify_flagged (H := url.escape_checker)
           (with_proxy "http://%zz" true) fresh_world).
  - fresh_is_settled.
  - fresh_has_no_entry.
Defined.

Lemma skip_verify_is_transport_wide_witness :
  ∃ p w' cl,
    run (H := url.escape_checker) (GetClient (with_proxy "" true)) fresh_world
    = Next (p, w') ∧
    heap w' !! p = Some cl ∧
    http.TLSClientConfig (http.Client_Transport cl)
    = Some {| tls.InsecureSkipVerify := true |} ∧
    ∀ leg, http.verifies (http.Client_Transport cl) leg = false.
Proof.
  apply (skip_verify_is_transport_wide (H := url.escape_checker)
           (with_proxy "" true) fresh_world).
  - fresh_is_settled.
  - fresh_has_no_entry.
  - reflexivity.
Defined.

(** ** Callers in parallel: where a caller is in [GetClient] *)
Section Points.
Context `{url.API}.

Lemma build_cont c :
  build c = cont c (AtBuild (warning_texts c) (built_transport c)).
Proof.
  unfold build, cont, warning_texts, built_transport, skip_verify_events, proxy_events,
    resolved_proxy, configure_proxy_tls, set_http_proxy.
  destruct (ProxyTLSSkipVerify c), (negb (String.eqb (ProxyURL c) ""));
    try destruct (url.Parse (ProxyURL c)); reflexivity.
Qed.

(** The program at a point performs the action of that point. *)
Lemma cont_step c pt :
  match pt with
  | AtReturn client => cont c pt = Ret client
  | _ =>
      ∃ f, cont c pt = Act f ∧
           ∀ w, f w = match point_step c pt w with
                      | Next (w', pt') => Next (w', cont c pt')
                      | Blocked => Blocked
                      | Panicked => Panicked
                      end
  end.
Proof.
  destruct pt as [| |found| | |msgs t|p|p|p]; try (eexists; split; [reflexivity|]; intros w).
  - cbn. by destruct (sync.writer _).
  - reflexivity.
  - cbn. destruct (sync.readers _); [done|]. by destruct found.
  - cbn. destruct (sync.writer _); [done|]. by destruct (sync.readers _).
  - cbn. destruct (clients (manager w)) as [cm|]; [|by rewrite build_cont].
    destruct (cm !! getFingerprint c); [done|]. by rewrite build_cont.
  - destruct msgs as [|msg msgs]; eexists; (split; [reflexivity|]); intros w; reflexivity.
  - cbn. by destruct (clients (manager w)).
  - cbn. by destruct (sync.writer _).
  - reflexivity.
Qed.

End Points.

(** ** Callers in parallel: the invariant *)
Section Tally.
Context {A : Type}.

Lemma tally_insert P (l : list A) i x y :
  l !! i = Some x →
  (tally P (<[i := y]> l) + Nat.b2n (P x) = tally P l + Nat.b2n (P y))%nat.
Proof.
  revert i. induction l as [|a l IH]; intros [|i] Hi; simpl in *; try done.
  - injection Hi as ->. lia.
  - specialize (IH i Hi). lia.
Qed.

Lemma tally_pos P (l : list A) i x :
  l !! i = Some x → P x = true → (1 ≤ tally P l)%nat.
Proof.
  revert i. induction l as [|a l IH]; intros [|i] Hi HP; simpl in *; try done.
  - injection Hi as ->. rewrite HP. simpl. lia.
  - specialize (IH i Hi HP). lia.
Qed.

Lemma tally_unique P (l : list A) i j x y :
  (tally P l ≤ 1)%nat →
  l !! i = Some x → l !! j = Some y → P x = true → P y = true → i = j.
Proof.
  revert i j. induction l as [|a l IH]; intros [|i] [|j] Hle Hi Hj Hx Hy;
    simpl in *; try done.
  - injection Hi as ->. rewrite Hx in Hle. pose proof (tally_pos P l j y Hj Hy). simpl in Hle. lia.
  - injection Hj as ->. rewrite Hy in Hle. pose proof (tally_pos P l i x Hi Hx). simpl in Hle. lia.
  - f_equal. eapply IH; try eassumption. lia.
Qed.

Lemma tally_none P (l : list A) :
  (∀ i x, l !! i = Some x → P x = false) → tally P l = 0%nat.
Proof.
  induction l as [|a l IH]; intros Hall; simpl; [done|].
  rewrite (Hall 0%nat a eq_refl), IH; [done|]. intros i x Hi. by apply (Hall (S i)).
Qed.

Lemma tally_pos_inv P (l : list A) :
  (1 ≤ tally P l)%nat → ∃ i x, l !! i = Some x ∧ P x = true.
Proof.
  induction l as [|a l IH]; simpl; [lia|]. intros Hle.
  destruct (P a) eqn:Ha.
  - by exists 0%nat, a.
  - destruct IH as (i & x & Hi & Hx); [simpl in Hle; lia|]. by exists (S i), x.
Qed.

Lemma tally_le P Q (l : list A) :
  (∀ x, P x = true → Q x = true) → (tally P l ≤ tally Q l)%nat.
Proof.
  intros HPQ. induction l as [|a l IH]; simpl; [lia|].
  destruct (P a) eqn:Ha; [rewrite (HPQ a Ha)|]; simpl; lia.
Qed.

Lemma total_insert μ (l : list A) i x y :
  l !! i = Some x →
  (total μ (<[i := y]> l) + μ x = total μ l + μ y)%nat.
Proof.
  revert i. induction l as [|a l IH]; intros [|i] Hi; simpl in *; try done.
  - injection Hi as ->. lia.
  - specialize (IH i Hi). lia.
Qed.

Lemma total_lookup μ (l : list A) i x :
  l !! i = Some x → (μ x ≤ total μ l)%nat.
Proof.
  revert i. induction l as [|a l IH]; intros [|i] Hi; simpl in *; try done.
  - injection Hi as ->. lia.
  - specialize (IH i Hi). lia.
Qed.

End Tally.

Section Parallel.
Context `{url.API}.

(** The callers, and the settled world on which they start. *)
Variable configs : list Config.
Variable w0 : world.
Variable cm0 : gmap string ptr.
Hypothesis w0_lock : lock (manager w0) = sync.zero.
Hypothesis w0_clients : clients (manager w0) = Some cm0.
Hypothesis w0_heap :
  ∀ f p, cm0 !! f = Some p →
         ∃ c, getFingerprint c = f ∧ heap w0 !! p = Some (built_client c).

Local Abbreviation good := (good configs w0 cm0).
Local Abbreviation inv := (inv configs w0 cm0).

Lemma good_start : good w0 (replicate (length configs) AtRLock).
Proof.
  assert (T : ∀ P, P AtRLock = false → tally P (replicate (length configs) AtRLock) = 0%nat).
  { intros P HP. apply tally_none. intros i x [-> _]%lookup_replicate. done. }
  split.
  - by rewrite length_replicate.
  - by rewrite w0_lock, T.
  - by rewrite w0_lock, T.
  - exists cm0. rewrite T by done. repeat split; auto; try lia.
    intros i c pt _ [-> _]%lookup_replicate. done.
Qed.

Lemma inv_spawn : inv (spawn w0 configs).
Proof.
  exists (replicate (length configs) AtRLock). split; [|apply good_start].
  unfold spawn. simpl. clear. induction configs as [|c cs IH]; simpl; [done|]. by f_equal.
Qed.

Lemma point_ok_heap c pt cm (hp more : list http.Client) :
  point_ok c pt cm hp → point_ok c pt cm (hp ++ more).
Proof.
  destruct pt as [| |[p|]| | |msgs t|p|p|p]; simpl; try done.
  intros [? ?]. split; [done|]. by apply lookup_app_l_Some.
Qed.

(** A step that leaves the map and the heap alone. *)
Lemma good_quiet w pts i c pt w' pt' :
  good w pts →
  configs !! i = Some c → pts !! i = Some pt →
  clients (manager w') = clients (manager w) →
  heap w' = heap w →
  sync.readers (lock (manager w')) = tally reading (<[i := pt']> pts) →
  Nat.b2n (sync.writer (lock (manager w'))) = tally writing (<[i := pt']> pts) →
  storing pt = false → storing pt' = false →
  (∀ cm, clients (manager w) = Some cm → point_ok c pt cm (heap w) →
         point_ok c pt' cm (heap w)) →
  good w' (<[i := pt']> pts).
Proof.
  intros [Hlen Hr Hw (cm & Hcm & Hptr & Hsub & Hkeys & Hcount & Hok)]
    Hc Hpt Hcl Hhp Hr' Hw' Hs Hs' Hnew.
  pose proof (tally_insert storing pts i pt pt' Hpt) as Ts. rewrite Hs, Hs' in Ts.
  split; [by rewrite length_insert|done|done|].
  exists cm. rewrite Hcl, Hhp. repeat split; try done; [simpl in Ts; lia|].
  intros j c' q Hc' Hq. destruct (decide (i = j)) as [<-|Hne].
  - rewrite list_lookup_insert_eq in Hq by (by eapply lookup_lt_Some).
    injection Hq as <-. rewrite Hc in Hc'. injection Hc' as <-. eauto.
  - rewrite list_lookup_insert_ne in Hq by done. eauto.
Qed.

Lemma good_step w pts i c pt w' pt' :
  good w pts →
  configs !! i = Some c → pts !! i = Some pt →
  point_step c pt w = Next (w', pt') →
  good w' (<[i := pt']> pts).
Proof.
  intros Hg Hc Hpt Hstep.
  pose proof (tally_insert reading pts i pt pt' Hpt) as Tr.
  pose proof (tally_insert writing pts i pt pt' Hpt) as Tw.
  pose proof Hg as [Hlen Hr Hw (cm & Hcm & Hptr & Hsub & Hkeys & Hcount & Hok)].
  pose proof (Hok i c pt Hc Hpt) as Hme.
  destruct pt as [| |found| | |msgs t|p|p|p]; simpl in Hstep.
  - (* RLock *)
    destruct (sync.writer (lock (manager w))) eqn:Hwr; [done|]. injection Hstep as <- <-.
    eapply good_quiet; try eassumption; try done; simpl in *; lia.
  - (* the first lookup *)
    rewrite Hcm in Hstep. injection Hstep as <- <-.
    eapply good_quiet; try eassumption; try done; simpl in *; try lia.
    intros cm' Hcm' _. destruct (cm !! getFingerprint c) eqn:Hf; [congruence|done].
  - (* RUnlock *)
    destruct (sync.readers (lock (manager w))) as [|n] eqn:Hrd; [done|].
    injection Hstep as <- <-.
    eapply good_quiet; try eassumption; try done;
      destruct found; simpl in *; try done; lia.
  - (* Lock *)
    destruct (sync.writer (lock (manager w))) eqn:Hwr; [done|].
    destruct (sync.readers (lock (manager w))) as [|n] eqn:Hrd; [|done].
    injection Hstep as <- <-.
    eapply good_quiet; try eassumption; try done; simpl in *; lia.
  - (* the second lookup *)
    rewrite Hcm in Hstep.
    destruct (cm !! getFingerprint c) eqn:Hf; injection Hstep as <- <-;
      (eapply good_quiet; try eassumption; try done; simpl in *; try lia).
    + intros cm' Hcm' _. congruence.
    + intros cm' Hcm' _. split; [congruence|done].
  - (* a warning, or the allocation *)
    destruct msgs as [|msg msgs]; injection Hstep as <- <-.
    + pose proof (tally_insert storing pts i _ (AtStore (length (heap w))) Hpt) as Ts.
      destruct Hme as [Hfree ->].
      split; [by rewrite length_insert|simpl in *; lia|simpl in *; lia|].
      exists cm. simpl in *. rewrite length_app. simpl.
      split; [done|]. split; [|split; [done|split; [done|split; [lia|]]]].
      * intros f q Hq. destruct (Hptr f q Hq) as (c0 & Hc0 & Hcl).
        exists c0. split; [done|]. by apply lookup_app_l_Some.
      * intros j c' q Hc' Hq. destruct (decide (i = j)) as [<-|Hne].
        -- rewrite list_lookup_insert_eq in Hq by (by eapply lookup_lt_Some).
           injection Hq as <-. rewrite Hc in Hc'. injection Hc' as <-.
           simpl. split; [done|]. by rewrite lookup_app_r, Nat.sub_diag.
        -- rewrite list_lookup_insert_ne in Hq by done.
           apply point_ok_heap. by eauto.
    + eapply good_quiet; try eassumption; try done; simpl in *; lia.
  - (* the map is written *)
    rewrite Hcm in Hstep. injection Hstep as <- <-.
    pose proof (tally_insert storing pts i _ (AtUnlock p) Hpt) as Ts.
    destruct Hme as [Hfree Hp].
    assert (Hone : (tally writing pts ≤ 1)%nat).
    { rewrite <- Hw. destruct (sync.writer _); simpl; lia. }
    split; [by rewrite length_insert|simpl in *; lia|simpl in *; lia|].
    exists (<[getFingerprint c := p]> cm). simpl in *.
    rewrite map_size_insert_None by done.
    repeat split; try done; try lia.
    * intros f q. destruct (decide (getFingerprint c = f)) as [<-|Hne].
      -- rewrite lookup_insert_eq. intros [= <-]. by exists c.
      -- rewrite lookup_insert_ne by done. apply Hptr.
    * etrans; [exact Hsub|]. by apply insert_subseteq.
    * intros f. destruct (decide (getFingerprint c = f)) as [<-|Hne].
      -- intros _. right. exists c. split; [|done]. by eapply list_elem_of_lookup_2.
      -- rewrite lookup_insert_ne by done. apply Hkeys.
    * intros j c' q Hc' Hq. destruct (decide (i = j)) as [<-|Hne].
      -- rewrite list_lookup_insert_eq in Hq by (by eapply lookup_lt_Some).
         injection Hq as <-. rewrite Hc in Hc'. injection Hc' as <-.
         simpl. apply lookup_insert_eq.
      -- rewrite list_lookup_insert_ne in Hq by done.
         pose proof (Hok j c' q Hc' Hq) as Hq_ok.
         assert (Hnw : writing q = false).
         { destruct (writing q) eqn:Hwq; [|done]. exfalso. apply Hne.
           by eapply (tally_unique writing pts i j). }
         destruct q as [| |[r|]| | |msgs t|r|r|r]; simpl in *; try done.
         all: destruct (decide (getFingerprint c = getFingerprint c')) as [E|E];
           [congruence | by rewrite lookup_insert_ne].
  - (* Unlock *)
    destruct (sync.writer (lock (manager w))) eqn:Hwr; [|done]. injection Hstep as <- <-.
    eapply good_quiet; try eassumption; try done; simpl in *; lia.
  - done.
Qed.

(** What the scheduler sees of a caller, read off its point. *)
Lemma try_caller_point s pts i c pt :
  callers s = zip_with cont configs pts →
  configs !! i = Some c → pts !! i = Some pt →
  try_caller i s =
  match pt with
  | AtReturn client => Returns client
  | _ =>
      match point_step c pt (shared s) with
      | Next (w', pt') =>
          Moved {| shared := w'; callers := zip_with cont configs (<[i := pt']> pts) |}
      | Blocked => Waits
      | Panicked => Crashes
      end
  end.
Proof.
  intros Hcs Hc Hpt. unfold try_caller.
  assert (Hi : callers s !! i = Some (cont c pt)).
  { rewrite Hcs, lookup_zip_with, Hc. simpl. by rewrite Hpt. }
  assert (Hins : ∀ pt', <[i := cont c pt']> (callers s)
                        = zip_with cont configs (<[i := pt']> pts)).
  { intros pt'. rewrite Hcs, insert_zip_with. by rewrite (list_insert_id configs i c Hc). }
  rewrite Hi. pose proof (cont_step c pt) as Hstep.
  destruct pt; try (destruct Hstep as (f & -> & Hf); rewrite Hf;
                    destruct (point_step c _ (shared s)) as [[w' pt']| |];
                    [by rewrite Hins|done|done]).
  by rewrite Hstep.
Qed.

Lemma caller_absent s pts i :
  callers s = zip_with cont configs pts → length pts = length configs →
  configs !! i = None → try_caller i s = Absent.
Proof.
  intros Hcs Hlen Hc. unfold try_caller.
  by rewrite Hcs, lookup_zip_with, Hc.
Qed.

Lemma inv_step i s : inv s → inv (step i s).
Proof.
  intros (pts & Hcs & Hg). unfold step.
  destruct (configs !! i) as [c|] eqn:Hc.
  - destruct (lookup_lt_is_Some_2 pts i) as [pt Hpt].
    { rewrite (good_length _ _ _ _ _ Hg). by eapply lookup_lt_Some. }
    rewrite (try_caller_point s pts i c pt Hcs Hc Hpt).
    destruct pt; try (destruct (point_step c _ (shared s)) as [[w' pt']| |] eqn:Hstep;
                      [|by exists pts|by exists pts];
                      exists (<[i := pt']> pts); split; [done|];
                      by eapply good_step);
      by exists pts.
  - rewrite (caller_absent s pts i Hcs (good_length _ _ _ _ _ Hg) Hc). by exists pts.
Qed.

Lemma inv_exec sched s : inv s → inv (exec sched s).
Proof.
  revert s. induction sched as [|i sched IH]; intros s Hs; [done|].
  apply IH. by apply inv_step.
Qed.

(** No action of a caller makes the runtime stop the program. *)
Lemma point_step_safe w pts i c pt :
  good w pts → configs !! i = Some c → pts !! i = Some pt →
  point_step c pt w ≠ Panicked.
Proof.
  intros [Hlen Hr Hw (cm & Hcm & _)] Hc Hpt.
  destruct pt as [| |found| | |[|msg msgs] t|p|p|p]; simpl; try done.
  - by destruct (sync.writer _).
  - pose proof (tally_pos reading pts i _ Hpt eq_refl).
    destruct (sync.readers _); [lia|done].
  - destruct (sync.writer _); [done|]. by destruct (sync.readers _).
  - by rewrite Hcm.
  - pose proof (tally_pos writing pts i _ Hpt eq_refl).
    destruct (sync.writer _); [done|]. simpl in Hw. lia.
Qed.

Lemma inv_no_crash s i : inv s → try_caller i s ≠ Crashes.
Proof.
  intros (pts & Hcs & Hg).
  destruct (configs !! i) as [c|] eqn:Hc.
  - destruct (lookup_lt_is_Some_2 pts i) as [pt Hpt].
    { rewrite (good_length _ _ _ _ _ Hg). by eapply lookup_lt_Some. }
    rewrite (try_caller_point s pts i c pt Hcs Hc Hpt).
    pose proof (point_step_safe _ _ _ _ _ Hg Hc Hpt) as Hsafe.
    destruct pt; try done; by destruct (point_step c _ (shared s)) as [[w' pt']| |].
  - by rewrite (caller_absent s pts i Hcs (good_length _ _ _ _ _ Hg) Hc).
Qed.

Lemma warning_texts_length c : (length (warning_texts c) ≤ 2)%nat.
Proof.
  unfold warning_texts, skip_verify_events, proxy_events.
  rewrite length_fmap, length_app.
  destruct (ProxyTLSSkipVerify c), (negb _); try destruct (url.Parse _); simpl; lia.
Qed.

Lemma point_step_decreases c pt w w' pt' :
  point_step c pt w = Next (w', pt') → (steps_left pt' < steps_left pt)%nat.
Proof.
  pose proof (warning_texts_length c) as Hwt.
  destruct pt as [| |[p|]| | |[|msg msgs] t|p|p|p]; simpl; intros Hstep;
    repeat match type of Hstep with
           | context [sync.writer ?l] => destruct (sync.writer l)
           | context [sync.readers ?l] => destruct (sync.readers l)
           | context [clients ?m] => destruct (clients m) as [cm|]
           | context [?cm !! ?k] => destruct (cm !! k)
           end;
    try done; injection Hstep as <- <-; simpl; lia.
Qed.

(** As long as a caller has not returned, some caller can move. *)
Lemma good_progress w pts :
  good w pts → Exists (λ pt, has_returned pt = false) pts →
  ∃ i c pt w' pt',
    configs !! i = Some c ∧ pts !! i = Some pt ∧ point_step c pt w = Next (w', pt').
Proof.
  intros Hg Hex. pose proof Hg as [Hlen Hr Hw (cm & Hcm & _)].
  assert (Hconf : ∀ i pt, pts !! i = Some pt → ∃ c, configs !! i = Some c).
  { intros i pt Hpt. apply lookup_lt_is_Some_2. rewrite <- Hlen. by eapply lookup_lt_Some. }
  assert (Hgo : ∀ i c pt, configs !! i = Some c → pts !! i = Some pt →
                          point_step c pt w ≠ Blocked →
                          ∃ i c pt w' pt', configs !! i = Some c ∧ pts !! i = Some pt ∧
                                           point_step c pt w = Next (w', pt')).
  { intros i c pt Hc Hpt Hnb. pose proof (point_step_safe _ _ _ _ _ Hg Hc Hpt) as Hsafe.
    destruct (point_step c pt w) as [[w' pt']| |] eqn:Hstep; [|done|done].
    by exists i, c, pt, w', pt'. }
  destruct (decide (1 ≤ tally reading pts)%nat) as [Hrd|Hrd].
  { destruct (tally_pos_inv _ _ Hrd) as (i & pt & Hpt & Hp).
    destruct (Hconf i pt Hpt) as [c Hc]. apply (Hgo i c pt Hc Hpt).
    destruct pt; simpl in *; try done. by destruct (sync.readers _). }
  destruct (decide (1 ≤ tally writing pts)%nat) as [Hwr|Hwr].
  { destruct (tally_pos_inv _ _ Hwr) as (i & pt & Hpt & Hp).
    destruct (Hconf i pt Hpt) as [c Hc]. apply (Hgo i c pt Hc Hpt).
    destruct pt as [| |[p|]| | |[|msg msgs] t|p|p|p]; simpl in *; try done.
    - by rewrite Hcm.
    - by destruct (sync.writer _). }
  apply Exists_exists in Hex as (pt & Hin & Hnr).
  apply list_elem_of_lookup in Hin as [i Hpt].
  destruct (Hconf i pt Hpt) as [c Hc]. apply (Hgo i c pt Hc Hpt).
  assert (sync.readers (lock (manager w)) = 0%nat) as Hr0 by lia.
  assert (sync.writer (lock (manager w)) = false) as Hw0.
  { destruct (sync.writer _); [simpl in Hw; lia|done]. }
  assert (reading pt = false) as Hnrd.
  { destruct (reading pt) eqn:E; [|done]. pose proof (tally_pos reading pts i pt Hpt E). lia. }
  assert (writing pt = false) as Hnwr.
  { destruct (writing pt) eqn:E; [|done]. pose proof (tally_pos writing pts i pt Hpt E). lia. }
  destruct pt; simpl in *; try done; by rewrite ?Hw0, ?Hr0.
Qed.

Lemma all_returned_points w pts :
  Forall (λ pt, has_returned pt = true) pts →
  all_returned {| shared := w; callers := zip_with cont configs pts |}.
Proof.
  intros Hall i p. simpl. rewrite lookup_zip_with.
  destruct (configs !! i) as [c|]; [|done]. simpl.
  destruct (pts !! i) as [pt|] eqn:Hpt; [|done]. simpl. intros [= <-].
  rewrite Forall_forall in Hall. specialize (Hall pt).
  specialize (Hall (list_elem_of_lookup_2 _ _ _ Hpt)).
  destruct pt; try discriminate Hall. by eexists.
Qed.

(** From wherever the callers are, some schedule lets them all return. *)
Lemma good_complete n : ∀ w pts,
  (total steps_left pts ≤ n)%nat → good w pts →
  ∃ sched, all_returned (exec sched {| shared := w; callers := zip_with cont configs pts |}).
Proof.
  induction n as [|n IH]; intros w pts Hn Hg.
  - exists []. apply all_returned_points. apply Forall_forall. intros pt Hin.
    apply list_elem_of_lookup in Hin as [i Hpt].
    pose proof (total_lookup steps_left pts i pt Hpt) as T.
    destruct pt as [| | | | |[|? ?] ?| | |]; simpl in *; try done; lia.
  - destruct (decide (Forall (λ pt, has_returned pt = true) pts)) as [Hall|Hnot].
    + exists []. by apply all_returned_points.
    + apply not_Forall_Exists in Hnot; [|apply _].
      assert (Hex : Exists (λ pt, has_returned pt = false) pts).
      { eapply Exists_impl; [exact Hnot|]. intros pt Hpt. simpl in Hpt.
        by destruct (has_returned pt). }
      destruct (good_progress w pts Hg Hex) as (i & c & pt & w' & pt' & Hc & Hpt & Hstep).
      pose proof (point_step_decreases _ _ _ _ _ Hstep) as Hdec.
      pose proof (total_insert steps_left pts i pt pt' Hpt) as T.
      destruct (IH w' (<[i := pt']> pts)) as [sched Hdone]; [lia|by eapply good_step|].
      exists (i :: sched). simpl. unfold step.
      rewrite (try_caller_point {| shared := w; callers := zip_with cont configs pts |}
                 pts i c pt eq_refl Hc Hpt). simpl. rewrite Hstep.
      by destruct pt.
Qed.

Lemma inv_complete s : inv s → ∃ sched, all_returned (exec sched s).
Proof.
  intros (pts & Hcs & Hg).
  destruct (good_complete _ (shared s) pts (le_n _) Hg) as [sched Hdone].
  exists sched. destruct s as [w cs]. simpl in *. by subst cs.
Qed.

Lemma cont_ret c pt client : cont c pt = Ret client → pt = AtReturn client.
Proof.
  pose proof (cont_step c pt) as Hstep. intros E.
  destruct pt; try (destruct Hstep as (f & Hf & _); congruence).
  rewrite Hstep in E. by injection E as ->.
Qed.

Lemma returned_point s pts i client :
  callers s = zip_with cont configs pts → returned s i client →
  ∃ c, configs !! i = Some c ∧ pts !! i = Some (AtReturn client).
Proof.
  intros Hcs. unfold returned. rewrite Hcs, lookup_zip_with.
  destruct (configs !! i) as [c|]; [|done]. simpl.
  destruct (pts !! i) as [pt|]; [|done]. simpl. intros [= E].
  apply cont_ret in E as ->. by exists c.
Qed.

(** Callers with the same fingerprint that have returned hold the same
    client, the one constructed for a configuration with that
    fingerprint. *)
Lemma inv_returned_same s i j ci cj p q :
  inv s → configs !! i = Some ci → configs !! j = Some cj →
  getFingerprint ci = getFingerprint cj →
  returned s i p → returned s j q →
  p = q ∧
  ∃ c0, getFingerprint c0 = getFingerprint ci ∧
        heap (shared s) !! p = Some (built_client c0).
Proof.
  intros (pts & Hcs & [_ _ _ (cm & Hcm & Hptr & _ & _ & _ & Hok)]) Hci Hcj Hfp Hp Hq.
  destruct (returned_point s pts i p Hcs Hp) as (c & Hc & Hpi).
  destruct (returned_point s pts j q Hcs Hq) as (c' & Hc' & Hpj).
  rewrite Hci in Hc. injection Hc as <-. rewrite Hcj in Hc'. injection Hc' as <-.
  pose proof (Hok i ci _ Hci Hpi) as Hi. pose proof (Hok j cj _ Hcj Hpj) as Hj.
  simpl in Hi, Hj. split; [congruence|]. by apply Hptr.
Qed.

(** Once all the callers have returned, the world is settled again. *)
Lemma inv_settled s : inv s → all_returned s → settled (shared s).
Proof.
  intros (pts & Hcs & [Hlen Hr Hw (cm & Hcm & Hptr & _)]) Hall.
  assert (Hret : ∀ i pt, pts !! i = Some pt → ∃ client, pt = AtReturn client).
  { intros i pt Hpt. destruct (lookup_lt_is_Some_2 configs i) as [c Hc].
    { rewrite <- Hlen. by eapply lookup_lt_Some. }
    destruct (Hall i (cont c pt)) as [client E].
    - rewrite Hcs, lookup_zip_with, Hc. simpl. by rewrite Hpt.
    - exists client. by apply cont_ret in E. }
  rewrite (tally_none reading pts) in Hr
    by (intros i pt Hpt; by destruct (Hret i pt Hpt) as [client ->]).
  rewrite (tally_none writing pts) in Hw
    by (intros i pt Hpt; by destruct (Hret i pt Hpt) as [client ->]).
  split; [|by exists cm].
  destruct (lock (manager (shared s))) as [r [|]]; simpl in *; [done|by subst r].
Qed.

(** With one fingerprint for all the callers, at most one client is
    ever constructed. *)
Lemma inv_one_construction s f :
  inv s → (∀ c, c ∈ configs → getFingerprint c = f) →
  (length (heap (shared s)) ≤ S (length (heap w0)))%nat.
Proof.
  intros (pts & Hcs & [Hlen _ Hw (cm & Hcm & Hptr & Hsub & Hkeys & Hcount & Hok)]) Hf.
  assert (Hst : (tally storing pts ≤ 1)%nat).
  { etrans; [apply (tally_le storing writing); by intros []|].
    rewrite <- Hw. destruct (sync.writer _); simpl; lia. }
  assert (Hk : ∀ k, is_Some (cm !! k) → is_Some (cm0 !! k) ∨ k = f).
  { intros k Hk. destruct (Hkeys k Hk) as [?|(c & Hc & <-)]; auto. }
  destruct (decide (1 ≤ tally storing pts)%nat) as [Hone|Hnone].
  - destruct (tally_pos_inv _ _ Hone) as (i & pt & Hpt & Hs).
    destruct pt; try done.
    assert (∃ c, configs !! i = Some c) as [c Hc].
    { apply lookup_lt_is_Some_2. rewrite <- Hlen. by eapply lookup_lt_Some. }
    pose proof (Hok i c _ Hc Hpt) as [Hfree _]. rewrite (Hf c) in Hfree
      by (by eapply list_elem_of_lookup_2).
    assert (size cm ≤ size cm0)%nat; [|lia].
    apply dom_subseteq_size. intros k Hk'. apply elem_of_dom in Hk'. apply elem_of_dom.
    destruct (Hk k Hk') as [?| ->]; [done|]. rewrite Hfree in Hk'. by destruct Hk'.
  - assert (size cm ≤ S (size cm0))%nat; [|lia].
    etrans; [apply (dom_subseteq_size (<[f := 0%nat]> cm0))|].
    + intros k Hk'. apply elem_of_dom in Hk'. apply elem_of_dom.
      destruct (Hk k Hk') as [?| ->].
      * destruct (decide (f = k)) as [->|]; [by rewrite lookup_insert_eq|].
        by rewrite lookup_insert_ne.
      * by rewrite lookup_insert_eq.
    + rewrite map_size_insert. destruct (cm0 !! f); simpl; lia.
Qed.

(** Once all the callers have returned, and when their fingerprint was
    not cached at the start, exactly one client has been constructed. *)
Lemma inv_done_one_construction s f :
  inv s → (∀ c, c ∈ configs → getFingerprint c = f) →
  cm0 !! f = None → configs ≠ [] → all_returned s →
  length (heap (shared s)) = S (length (heap w0)).
Proof.
  intros Hinv Hf Hfree Hne Hall.
  pose proof (inv_one_construction s f Hinv Hf) as Hle.
  destruct Hinv as (pts & Hcs & [Hlen _ _ (cm & Hcm & Hptr & Hsub & Hkeys & Hcount & Hok)]).
  assert (Hret : ∀ i c pt, configs !! i = Some c → pts !! i = Some pt →
                           ∃ client, pt = AtReturn client).
  { intros i c pt Hc Hpt. destruct (Hall i (cont c pt)) as [client E].
    - rewrite Hcs, lookup_zip_with, Hc. simpl. by rewrite Hpt.
    - exists client. by apply cont_ret in E. }
  assert (Hst : tally storing pts = 0%nat).
  { apply tally_none. intros i pt Hpt.
    destruct (lookup_lt_is_Some_2 configs i) as [c Hc].
    { rewrite <- Hlen. by eapply lookup_lt_Some. }
    by destruct (Hret i c pt Hc Hpt) as [client ->]. }
  destruct configs as [|c cs] eqn:Hconfigs; [done|].
  destruct pts as [|pt pts']; [done|].
  destruct (Hret 0%nat c pt eq_refl eq_refl) as [client ->].
  pose proof (Hok 0%nat c _ eq_refl eq_refl) as Hc. simpl in Hc.
  rewrite (Hf c) in Hc by (by left).
  assert (S (size cm0) ≤ size cm)%nat; [|lia].
  rewrite <- (map_size_insert_None f client cm0 Hfree).
  apply map_subseteq_size. by apply insert_subseteq_l.
Qed.

End Parallel.

(** ** The claim about callers in parallel *)
Section ParallelClaims.
Context `{url.API}.

(** C1: callers in any number run [GetClient] in parallel, with
    configurations that have the same fingerprint, on a manager on which
    no call is under way. Whatever the scheduler does, at most one client
    is constructed; the callers that have returned hold the same pointer,
    the address of the client constructed for a configuration with their
    fingerprint; no caller makes the program stop; the callers can all be
    brought to return; and once they all have, the manager is ready for
    further calls and exactly one client has been constructed if their
    fingerprint was not cached before (as on a new manager). *)
Theorem single_construction (configs : list Config) (w0 : world) (sched : schedule) :
  settled w0 →
  (∀ c c', c ∈ configs → c' ∈ configs → getFingerprint c = getFingerprint c') →
  let s := exec sched (spawn w0 configs) in
  (length (heap (shared s)) ≤ S (length (heap w0)))%nat ∧
  (∀ i j p q, returned s i p → returned s j q →
              p = q ∧
              ∃ c0, (∀ c, c ∈ configs → getFingerprint c0 = getFingerprint c) ∧
                    heap (shared s) !! p = Some (built_client c0)) ∧
  (∀ i, try_caller i s ≠ Crashes) ∧
  (∃ more, all_returned (exec more s)) ∧
  (all_returned s →
   settled (shared s) ∧
   (configs ≠ [] → (∀ c, c ∈ configs → not_cached c w0) →
    length (heap (shared s)) = S (length (heap w0)))).
Proof.
  intros (Hl & cm0 & Hcm0 & Hbuilt) Hsame s.
  assert (Hinv : inv configs w0 cm0 s).
  { apply inv_exec; try done. by apply inv_spawn. }
  set (f := default "" (getFingerprint <$> head configs)).
  assert (Hf : ∀ c, c ∈ configs → getFingerprint c = f).
  { intros c Hc. unfold f. destruct configs as [|c0 cs]; [by apply elem_of_nil in Hc|].
    simpl. apply Hsame; [done|by left]. }
  split; [by eapply (inv_one_construction configs w0 cm0)|].
  split; [|split; [|split; [|intros Hall; split]]].
  - intros i j p q Hp Hq.
    destruct Hinv as (pts & Hcs & Hg).
    destruct (returned_point configs s pts i p Hcs Hp) as (ci & Hci & _).
    destruct (returned_point configs s pts j q Hcs Hq) as (cj & Hcj & _).
    assert (Hij : getFingerprint ci = getFingerprint cj).
    { apply Hsame; by eapply list_elem_of_lookup_2. }
    destruct (inv_returned_same configs w0 cm0 s i j ci cj p q) as (Hpq & c0 & Hc0 & Hcl);
      try done; [by exists pts|].
    split; [done|]. exists c0. split; [|done].
    intros c Hc. rewrite Hc0. apply Hsame; [by eapply list_elem_of_lookup_2|done].
  - intros i. by eapply inv_no_crash.
  - by eapply inv_complete.
  - by eapply inv_settled.
  - intros Hne Hnc.
    eapply (inv_done_one_construction configs w0 cm0 s f); try done.
    destruct configs as [|c0 cs]; [done|].
    destruct (Hnc c0) as (cm & Hcm & Hfree); [by left|].
    rewrite Hcm0 in Hcm. injection Hcm as <-. by rewrite <- (Hf c0) by (by left).
Qed.

End ParallelClaims.

(** Three callers with one fingerprint (15.2s rounds to 15s), under one
    of their schedules. *)
Lemma single_construction_witness :
  let configs := [sample; with_connect (15200 * time.Millisecond); sample] in
  let s := exec (H := url.escape_checker)
             [0; 1; 2; 2; 1; 0; 0; 1; 2; 1; 1; 1; 1; 1; 1; 0; 0; 0; 0; 2; 2; 2; 2; 2]%nat
             (spawn fresh_world configs) in
  (length (heap (shared s)) ≤ S (length (heap (H := url.escape_checker) fresh_world)))%nat ∧
  (∀ i j p q, returned s i p → returned s j q →
              p = q ∧
              ∃ c0, (∀ c, c ∈ configs → getFingerprint c0 = getFingerprint c) ∧
                    heap (shared s) !! p = Some (built_client c0)) ∧
  (∀ i, try_caller i s ≠ Crashes) ∧
  (∃ more, all_returned (exec more s)) ∧
  (all_returned s →
   settled (shared s) ∧
   (configs ≠ [] →
    (∀ c, c ∈ configs → not_cached (H := url.escape_checker) c fresh_world) →
    length (heap (shared s)) = S (length (heap (H := url.escape_checker) fresh_world)))).
Proof.
  intros configs.
  apply (single_construction (H := url.escape_checker) configs fresh_world).
  - fresh_is_settled.
  - intros c c' Hc Hc'. apply list_elem_of_In in Hc, Hc'. simpl in Hc, Hc'.
    destruct Hc as [<-|[<-|[<-|[]]]], Hc' as [<-|[<-|[<-|[]]]]; vm_compute; reflexivity.
Defined.

(** The race the second lookup is there for: the three callers all miss
    on the fast path before any of them takes the write lock; the first
    to lock builds the client, the two others find it. *)
Example three_callers_race :
  let s := exec (H := url.escape_checker)
             [0; 1; 2; 2; 1; 0; 0; 1; 2; 1; 1; 1; 1; 1; 1; 0; 0; 0; 0; 2; 2; 2; 2; 2]%nat
             (spawn fresh_world
                [sample; with_connect (15200 * time.Millisecond); sample]) in
  result <$> callers s = [Some 0; Some 0; Some 0]%nat ∧
  length (heap (shared s)) = 1%nat ∧
  lock (manager (shared s)) = sync.zero.
Proof. vm_compute. repeat split; reflexivity. Qed.

(** Two callers with a malformed proxy URL and the skip-verify flag: one
    construction, and its two warnings once. *)
Example two_callers_bad_proxy :
  let s := exec (H := url.escape_checker)
             [0; 0; 0; 1; 1; 1; 0; 0; 0; 0; 0; 0; 0; 1; 1; 1]%nat
             (spawn fresh_world
                [with_proxy "http://%zz" true; with_proxy "http://%zz" true]) in
  result <$> callers s = [Some 0; Some 0]%nat ∧
  length (heap (shared s)) = 1%nat ∧
  logrus.Message <$> logged (shared s) =
  ["Proxy TLS certificate verification is disabled - this is not recommended for production use";
   "Invalid proxy URL 'http://%zz' provided, falling back to environment settings: invalid URL escape"].
Proof. vm_compute. repeat split; reflexivity. Qed.

(** * Further properties of the code *)

(** ** The fingerprint of the configurations the settings give *)
Section WholeSecondConfigurations.

(** For configurations whose durations are whole seconds, the
    fingerprint is exact: two of them have the same fingerprint only if
    they are the same in every field. *)
Theorem fingerprint_exact_on_whole_seconds c1 c2 :
  whole_second_config c1 → whole_second_config c2 →
  (getFingerprint c1 = getFingerprint c2 ↔ c1 = c2).
Proof.
  intros (A1 & A2 & A3 & A4 & A5 & A6) (B1 & B2 & B3 & B4 & B5 & B6).
  split; [|by intros ->].
  intros E. apply fingerprint_fields in E.
  destruct E as (T1 & T2 & T3 & E4 & E5 & T6 & E7 & E8 & E9 & E10 & T11 & T12 & E13 & E14).
  apply whole_second_duration_text in T1, T2, T3, T6, T11, T12; try done.
  destruct c1, c2; simpl in *. by subst.
Qed.

End WholeSecondConfigurations.

Lemma fingerprint_exact_on_whole_seconds_witness :
  getFingerprint sample = getFingerprint (with_idle (120 * time.Second)) ↔
  sample = with_idle (120 * time.Second).
Proof.
  apply (fingerprint_exact_on_whole_seconds sample (with_idle (120 * time.Second)));
    unfold whole_second_config, whole_second_duration, time.in_range;
    repeat split; vm_compute; (reflexivity || discriminate).
Defined.

(** ** More about one caller at a time *)
Section MoreSequential.
Context `{url.API}.

Lemma built_client_carries c : carries (built_client c) c.
Proof.
  unfold carries, built_client, built_transport. simpl.
  destruct (ProxyTLSSkipVerify c); repeat split; reflexivity.
Qed.

(** A client that is constructed has the settings of the configuration
    of the call: the timeouts, the limits of the pool, the buffer sizes
    and the toggles are copied, the keep-alive is 30 seconds, and what is
    done to the TLS configuration and to the proxy leaves them alone. *)
Theorem constructed_client_settings c w :
  settled w → not_cached c w →
  ∃ p w' cl, run (GetClient c) w = Next (p, w') ∧
             heap w' !! p = Some cl ∧
             carries cl c.
Proof.
  intros (Hl & _) (cm & Hcm & Hnc).
  eexists _, _, (built_client c). split; [by eapply GetClient_miss|]. simpl.
  split; [apply lookup_built | apply built_client_carries].
Qed.

(** The first configuration of a fingerprint wins: a later call with
    another configuration of the same fingerprint gets the client that
    was constructed for the first one, with the settings of the first
    one, and it changes nothing, so that it logs no warning and
    constructs nothing. *)
Theorem first_configuration_wins c1 c2 w :
  settled w → not_cached c1 w →
  getFingerprint c1 = getFingerprint c2 →
  ∃ p w1 cl, run (GetClient c1) w = Next (p, w1) ∧
             run (GetClient c2) w1 = Next (p, w1) ∧
             heap w1 !! p = Some cl ∧
             carries cl c1.
Proof.
  intros Hw (cm & Hcm & Hnc) Hfp.
  destruct (GetClient_cases c1 w cm Hw Hcm)
    as [(p & c0 & Hp & _) | (_ & w1 & Hrun & Hcm1 & Hhp & _ & Hw1)]; [congruence|].
  exists (length (heap w)), w1, (built_client c1). split; [done|].
  split; [|split; [rewrite Hhp; apply lookup_built | apply built_client_carries]].
  eapply GetClient_hit; [apply Hw1|exact Hcm1|]. rewrite <- Hfp. apply lookup_insert_eq.
Qed.

(** A hit does not wait for the callers that hold read locks: with no
    writer, whatever the number of readers, the cached client is
    returned and the world is as before. *)
Theorem hit_beside_readers c w cm p :
  sync.writer (lock (manager w)) = false →
  clients (manager w) = Some cm →
  cm !! getFingerprint c = Some p →
  run (GetClient c) w = Next (p, w).
Proof.
  destruct w as [[cl [n wr]] hp lg]. simpl. intros -> -> Hp.
  unfold GetClient. cbn. rewrite Hp. reflexivity.
Qed.

(** A call waits while a writer holds the lock, and a miss waits while
    a reader does: the client is constructed only with the lock held by
    this call alone. *)
Theorem call_waits c w :
  sync.writer (lock (manager w)) = true ∨
  (sync.readers (lock (manager w)) ≠ 0%nat ∧ not_cached c w) →
  run (GetClient c) w = Blocked.
Proof.
  destruct w as [[cl [n wr]] hp lg]. simpl.
  intros [-> | [Hn (cm & Hcm & Hnc)]]; [reflexivity|]. simpl in Hcm. subst cl.
  destruct wr; [reflexivity|].
  unfold GetClient. cbn. rewrite Hnc. unfold slow_path. cbn.
  by destruct n.
Qed.

Lemma tidy_fresh : tidy fresh_world.
Proof.
  split; [apply settled_fresh|]. intros cm f1 f2 p [= <-]. by rewrite lookup_empty.
Qed.

(** One call on a tidy world: the pointer is stored under the
    fingerprint, the old entries stay, the keys grow by the fingerprint,
    and the heap by one client exactly when the fingerprint is new. *)
Lemma GetClient_tidy c w cm :
  tidy w → clients (manager w) = Some cm →
  ∃ p w' cm', run (GetClient c) w = Next (p, w') ∧
              tidy w' ∧
              clients (manager w') = Some cm' ∧
              cm' !! getFingerprint c = Some p ∧
              cm ⊆ cm' ∧
              dom cm' = dom cm ∪ {[getFingerprint c]} ∧
              (length (heap w') + size cm = length (heap w) + size cm')%nat.
Proof.
  intros [Hw Hinj] Hcm. pose proof Hw as (_ & cm0 & Hcm0 & Hptr).
  rewrite Hcm in Hcm0. injection Hcm0 as <-.
  destruct (GetClient_cases c w cm Hw Hcm)
    as [(p & c0 & Hp & _ & _ & Hrun) | (Hfree & w' & Hrun & Hcm' & Hhp & _ & Hw')].
  - exists p, w, cm. split; [done|]. split; [done|]. split; [done|]. split; [done|].
    split; [done|]. split; [|lia].
    apply elem_of_dom_2 in Hp. apply set_eq. intros k.
    rewrite elem_of_union, elem_of_singleton. split; [by left|]. by intros [?| ->].
  - eexists _, w', _. split; [done|]. split; [|split; [done|]].
    + split; [done|]. intros cm' f1 f2 q Hcm'' H1 H2.
      rewrite Hcm' in Hcm''. injection Hcm'' as <-.
      assert (Hold : ∀ f, cm !! f = Some (length (heap w)) → False).
      { intros f Hf. destruct (Hptr f _ Hf) as (c0 & _ & Hcl).
        apply lookup_lt_Some in Hcl. lia. }
      destruct (decide (getFingerprint c = f1)) as [<-|N1],
               (decide (getFingerprint c = f2)) as [<-|N2]; try done.
      * rewrite lookup_insert_eq in H1. injection H1 as <-.
        rewrite lookup_insert_ne in H2 by done. by destruct (Hold f2).
      * rewrite lookup_insert_eq in H2. injection H2 as <-.
        rewrite lookup_insert_ne in H1 by done. by destruct (Hold f1).
      * rewrite lookup_insert_ne in H1, H2 by done. by eapply Hinj.
    + split; [apply lookup_insert_eq|]. split; [by apply insert_subseteq|].
      split; [rewrite dom_insert_L; apply union_comm_L|].
      rewrite Hhp, length_app, map_size_insert_None by done. simpl. lia.
Qed.

(** The calls of a list, one after the other, on a tidy world. *)
Lemma call_each_tidy cs : ∀ w cm,
  tidy w → clients (manager w) = Some cm →
  ∃ ps w' cm', run (call_each cs) w = Next (ps, w') ∧
               tidy w' ∧
               clients (manager w') = Some cm' ∧
               Forall2 (λ c p, cm' !! getFingerprint c = Some p) cs ps ∧
               cm ⊆ cm' ∧
               dom cm' = dom cm ∪ list_to_set (getFingerprint <$> cs) ∧
               (length (heap w') + size cm = length (heap w) + size cm')%nat.
Proof.
  induction cs as [|c cs IH]; intros w cm Hw Hcm.
  - exists [], w, cm. split; [done|]. split; [done|]. split; [done|].
    split; [constructor|]. split; [done|]. split; [|lia].
    simpl. by rewrite union_empty_r_L.
  - destruct (GetClient_tidy c w cm Hw Hcm)
      as (p & w1 & cm1 & Hrun & Hw1 & Hcm1 & Hp & Hsub & Hdom & Hlen).
    destruct (IH w1 cm1 Hw1 Hcm1)
      as (ps & w2 & cm2 & Hrun2 & Hw2 & Hcm2 & Hall & Hsub2 & Hdom2 & Hlen2).
    exists (p :: ps), w2, cm2. split.
    { change (call_each (c :: cs))
        with (GetClient c ≫= λ client,
              call_each cs ≫= λ clients, mret (client :: clients)).
      rewrite run_bind, Hrun, run_bind, Hrun2. reflexivity. }
    split; [done|]. split; [done|]. split.
    { constructor; [|done]. by eapply lookup_weaken. }
    split; [by etrans|]. split; [|lia].
    rewrite Hdom2, Hdom. simpl. by rewrite (assoc_L (∪)).
Qed.

(** Over a sequence of calls the pointers follow the fingerprints: two
    calls return the same client exactly when their configurations have
    the same fingerprint. *)
Theorem pointers_follow_fingerprints cs w :
  tidy w →
  ∃ ps w', run (call_each cs) w = Next (ps, w') ∧
           length ps = length cs ∧
           ∀ i j ci cj pi pj,
             cs !! i = Some ci → cs !! j = Some cj →
             ps !! i = Some pi → ps !! j = Some pj →
             (pi = pj ↔ getFingerprint ci = getFingerprint cj).
Proof.
  intros Hw. pose proof Hw as ((_ & cm & Hcm & _) & _).
  destruct (call_each_tidy cs w cm Hw Hcm)
    as (ps & w' & cm' & Hrun & [_ Hinj] & Hcm' & Hall & _).
  exists ps, w'. split; [done|]. split; [symmetry; by eapply Forall2_length|].
  intros i j ci cj pi pj Hci Hcj Hpi Hpj.
  pose proof (Forall2_lookup_lr _ _ _ _ _ _ Hall Hci Hpi) as Hi.
  pose proof (Forall2_lookup_lr _ _ _ _ _ _ Hall Hcj Hpj) as Hj.
  simpl in Hi, Hj. split.
  - intros <-. by eapply Hinj.
  - intros E. rewrite E in Hi. congruence.
Qed.

(** Over a sequence of calls, one client is constructed for each
    fingerprint that was not cached before, and none besides. *)
Theorem one_client_per_fingerprint cs w :
  tidy w →
  ∃ ps w', run (call_each cs) w = Next (ps, w') ∧
           length (heap w') =
           (length (heap w) +
            size (list_to_set (getFingerprint <$> cs) ∖ cached_keys w))%nat.
Proof.
  intros Hw. pose proof Hw as ((_ & cm & Hcm & _) & _).
  destruct (call_each_tidy cs w cm Hw Hcm)
    as (ps & w' & cm' & Hrun & _ & Hcm' & _ & Hsub & Hdom & Hlen).
  exists ps, w'. split; [done|].
  unfold cached_keys. rewrite Hcm.
  assert (size cm' = size cm + size (list_to_set (getFingerprint <$> cs) ∖ dom cm))%nat.
  { rewrite <- !size_dom, Hdom. apply size_union_alt. }
  lia.
Qed.

End MoreSequential.

Lemma constructed_client_settings_witness :
  ∃ p w' cl,
    run (H := url.escape_checker) (GetClient (with_proxy "http://%zz" true)) fresh_world
    = Next (p, w') ∧
    heap w' !! p = Some cl ∧
    carries cl (with_proxy "http://%zz" true).
Proof.
  apply (constructed_client_settings (H := url.escape_checker)
           (with_proxy "http://%zz" true) fresh_world).
  - fresh_is_settled.
  - fresh_has_no_entry.
Defined.

(** 15.4s after 15s: the client dials with a timeout of 15s. *)
Lemma first_configuration_wins_witness :
  ∃ p w1 cl,
    run (H := url.escape_checker) (GetClient sample) fresh_world = Next (p, w1) ∧
    run (GetClient (with_connect (15400 * time.Millisecond))) w1 = Next (p, w1) ∧
    heap w1 !! p = Some cl ∧
    carries cl sample.
Proof.
  apply (first_configuration_wins (H := url.escape_checker)
           sample (with_connect (15400 * time.Millisecond)) fresh_world).
  - fresh_is_settled.
  - fresh_has_no_entry.
  - vm_compute. reflexivity.
Defined.

Lemma hit_beside_readers_witness :
  let w := {| manager := {| clients := Some {[getFingerprint sample := 0%nat]};
                            lock := {| sync.readers := 2; sync.writer := false |} |};
              heap := [built_client (H := url.escape_checker) sample];
              logged := [] |} in
  run (GetClient sample) w = Next (0%nat, w).
Proof.
  intros w.
  apply (hit_beside_readers (H := url.escape_checker) sample w
           {[getFingerprint sample := 0%nat]} 0%nat).
  - reflexivity.
  - reflexivity.
  - apply lookup_singleton_eq.
Defined.

Lemma call_waits_witness :
  run (H := url.escape_checker) (GetClient sample)
      {| manager := {| clients := Some ∅;
                       lock := {| sync.readers := 0; sync.writer := true |} |};
         heap := []; logged := [] |} = Blocked.
Proof.
  apply (call_waits (H := url.escape_checker) sample). left. reflexivity.
Defined.

Lemma pointers_follow_fingerprints_witness :
  let cs := [sample; with_idle (121 * time.Second); sample] in
  ∃ ps w', run (H := url.escape_checker) (call_each cs) fresh_world = Next (ps, w') ∧
           length ps = length cs ∧
           ∀ i j ci cj pi pj,
             cs !! i = Some ci → cs !! j = Some cj →
             ps !! i = Some pi → ps !! j = Some pj →
             (pi = pj ↔ getFingerprint ci = getFingerprint cj).
Proof.
  intros cs.
  apply (pointers_follow_fingerprints (H := url.escape_checker) cs fresh_world).
  split; [fresh_is_settled|].
  intros cm f1 f2 p Hcm Hempty. injection Hcm as <-.
  rewrite lookup_empty in Hempty. discriminate Hempty.
Defined.

Lemma one_client_per_fingerprint_witness :
  let cs := [sample; with_idle (121 * time.Second); sample] in
  ∃ ps w', run (H := url.escape_checker) (call_each cs) fresh_world = Next (ps, w') ∧
           length (heap w') =
           (length (heap (H := url.escape_checker) fresh_world) +
            size (list_to_set (getFingerprint <$> cs)
                  ∖ cached_keys (H := url.escape_checker) fresh_world))%nat.
Proof.
  intros cs.
  apply (one_client_per_fingerprint (H := url.escape_checker) cs fresh_world).
  split; [fresh_is_settled|].
  intros cm f1 f2 p Hcm Hempty. injection Hcm as <-.
  rewrite lookup_empty in Hempty. discriminate Hempty.
Defined.

(** The three calls of the scenario: two clients, the first and the
    third call sharing one. *)
Example scenario_in_sequence :
  ∃ w', run (H := url.escape_checker)
            (call_each [sample; with_idle (121 * time.Second); sample]) fresh_world
        = Next ([0; 1; 0]%nat, w') ∧
        length (heap w') = 2%nat.
Proof. eexists. split; [vm_compute; reflexivity | reflexivity]. Qed.
